(** * t_lib: the dense row-major tensor of [include/t_lib/tensor.hpp]

    A shallow embedding of namespace [tensor_lib]: the two layout helpers
    [calculate_total] and [calculate_stride], and the class template
    [Tensor<T>] with [initialize], [at] and [element_wise_apply].

    Conventions of the embedding.
    - [int] is a 32-bit two's complement integer, carried as a [Z] in
      [INT_MIN, INT_MAX]; [size_t] is a 64-bit unsigned integer, carried as
      a [Z] in [0, 2^64).  Multiplication and addition reduce their exact
      result into the type's range.  For [size_t] that is the language's
      rule; for [int] the language leaves overflow undefined, and the
      embedding takes the two's complement result of the machine
      instruction.  Where the product of a shape fits [int] nothing
      overflows, and the choice plays no part.
    - A call either returns, throws one of the standard exceptions with its
      message, or has no defined result: integer division by zero or of
      [INT_MIN] by [-1], and [operator[]] outside a vector.
    - [std::vector<X>] is [list X]; [v[i]] is stdpp's lookup [v !! i].
    - [std::cout] is the list of elements written to it so far. *)

From Stdlib Require Import ZArith Lia String Ascii.
From stdpp Require Import base numbers list list_numbers.

Local Open Scope Z_scope.

(** ** Machine integers *)

Definition INT_MAX : Z := 2 ^ 31 - 1.
Definition INT_MIN : Z := - 2 ^ 31.
Definition SIZE_MODULUS : Z := 2 ^ 64.

(** Largest [size()] any [std::vector] can have ([PTRDIFF_MAX]); [max_size()]
    of a concrete element type is this value divided by its size. *)
Definition vector_max_size : Z := 2 ^ 63 - 1.

(** Reduction of an exact result into the range of [int]. *)
Definition wrap_int (z : Z) : Z := (z + 2 ^ 31) mod 2 ^ 32 - 2 ^ 31.

(** Conversion of an [int] (or any exact value) to [size_t]. *)
Definition to_size_t (z : Z) : Z := z mod SIZE_MODULUS.

(** Conversion of a [size_t] to [int], as at the call
    [calculate_stride(shape, total_elements)]. *)
Definition size_t_to_int (z : Z) : Z := wrap_int z.

Definition is_int (z : Z) : Prop := INT_MIN <= z <= INT_MAX.

(** ** Outcomes of a call *)

Inductive exception : Type :=
  | logic_error (what : string)
  | invalid_argument (what : string)
  | out_of_range (what : string)
  | length_error (what : string).

Inductive outcome (A : Type) : Type :=
  | Returns (a : A)
  | Throws (e : exception)
  | Undefined.

Arguments Returns {A} a.
Arguments Throws {A} e.
Arguments Undefined {A}.

Definition bind {A B : Type} (m : outcome A) (k : A -> outcome B) : outcome B :=
  match m with
  | Returns a => k a
  | Throws e => Throws e
  | Undefined => Undefined
  end.

Notation "x <- m ; k" := (bind m (fun x => k))
  (at level 20, m at level 100, k at level 200, only parsing).

Definition outcome_map {A B : Type} (f : A -> B) (m : outcome A) : outcome B :=
  x <- m ; Returns (f x).

(** How a call of a [void] member function ends for the object it is
    called on: it completes, it throws and leaves the object as it was at
    the throw, or it has no defined result. *)
Inductive completion (Obj : Type) : Type :=
  | Completes (obj : Obj)
  | Raises (e : exception) (obj : Obj)
  | NoResult.

Arguments Completes {Obj} obj.
Arguments Raises {Obj} e obj.
Arguments NoResult {Obj}.

(** The completion of a call seen by a caller that drops the object of a
    throwing call. *)
Definition outcome_of {Obj : Type} (c : completion Obj) : outcome Obj :=
  match c with
  | Completes obj => Returns obj
  | Raises e _ => Throws e
  | NoResult => Undefined
  end.

(** The error kinds of the specification, as the exceptions the code throws. *)
Definition InvalidShape : exception :=
  logic_error "Shape vector should not be empty".
Definition ShapeMismatch : exception :=
  logic_error "Input data size does not match tensor shape".
Definition RankMismatch : exception :=
  invalid_argument "Position input should match shape dimensions".
Definition IndexOutOfRange : exception :=
  out_of_range "Position index out of bounds".

(** [a * b] on [int]. *)
Definition int_mul (a b : Z) : Z := wrap_int (a * b).

(** [a / b] on [int]: truncation towards zero. *)
Definition int_div (a b : Z) : outcome Z :=
  if b =? 0 then Undefined
  else if (a =? INT_MIN) && (b =? -1) then Undefined
  else Returns (Z.quot a b).

(** [acc += x] for [size_t acc] and [int x]: [x] is converted first. *)
Definition size_add (acc x : Z) : Z := to_size_t (acc + to_size_t x).

(** [v[i]] and [v.size()]. *)
Definition vec_get {A : Type} (v : list A) (i : nat) : outcome A :=
  match v !! i with
  | Some x => Returns x
  | None => Undefined
  end.

Definition vec_size {A : Type} (v : list A) : Z := Z.of_nat (length v).

(** [v[i]] for an index [i] of type [size_t], held as a [Z]. *)
Definition vec_index {A : Type} (v : list A) (i : Z) : outcome A :=
  if (0 <=? i) && (i <? vec_size v) then vec_get v (Z.to_nat i) else Undefined.

(** ** Layout helpers *)

(** [int calculate_total(const std::vector<int>& shape)] *)
Definition calculate_total (shape : list Z) : outcome Z :=
  match shape with
  | [] => Throws (logic_error "Shape vector should not be empty")
  | shape0 :: rest => Returns (foldl int_mul shape0 rest)
  end.

(** The range-for of [calculate_stride]: [stride.push_back(total / dim);
    total /= dim;] for each [dim]. *)
Fixpoint stride_loop (dims stride : list Z) (total : Z) : outcome (list Z) :=
  match dims with
  | [] => Returns stride
  | dim :: dims' =>
      q <- int_div total dim ;
      total' <- int_div total dim ;
      stride_loop dims' (stride ++ [q]) total'
  end.

(** [std::vector<int> calculate_stride(const std::vector<int>& shape, int total = 0)] *)
Definition calculate_stride (shape : list Z) (total : Z) : outcome (list Z) :=
  match shape with
  | [] => Throws (logic_error "Shape vector should not be empty")
  | _ :: _ =>
      total' <- (if total =? 0 then calculate_total shape else Returns total) ;
      stride_loop shape [] total'
  end.

(** ** Tensor *)

Section TensorT.

Context {T : Type}.
(** [T{}], the value [resize] fills with. *)
Context (T_default : T).

Record Tensor : Type := mkTensor {
  shape : list Z;
  stride : list Z;
  elements : list T;
  total_elements : Z
}.

(** [elements.resize(n)]: keeps the first [n] entries, pads with [T{}], and
    throws [std::length_error] beyond [max_size()].  Allocation below that
    bound is taken to succeed. *)
Definition vec_resize (v : list T) (n : Z) : outcome (list T) :=
  if vector_max_size <? n then Throws (length_error "vector::_M_default_append")
  else Returns (take (Z.to_nat n) v ++ replicate (Z.to_nat n - length v) T_default).

(** [void Tensor<T>::initialize(input_shape, input_elements)], from the
    object [this] to the object after the call.  A call that throws yields
    no object; the members it had assigned by then are not tracked. *)
Definition initialize (this : Tensor) (input_shape : list Z) (input_elements : list T)
  : outcome Tensor :=
  let shape := input_shape in
  total <- calculate_total shape ;
  let total_elements := to_size_t total in
  stride <- calculate_stride shape (size_t_to_int total_elements) ;
  match input_elements with
  | [] =>
      elements <- vec_resize (elements this) total_elements ;
      Returns (mkTensor shape stride elements total_elements)
  | _ :: _ =>
      if negb (vec_size input_elements =? total_elements)
      then Throws (logic_error "Input data size does not match tensor shape")
      else Returns (mkTensor shape stride input_elements total_elements)
  end.

(** The members of an object before the constructor body runs; the body
    assigns [total_elements] before anything reads it. *)
Definition fresh : Tensor := mkTensor [] [] [] 0.

(** [Tensor(const std::vector<int>& shape, const std::vector<T>& elements = {})] *)
Definition Tensor_ctor (shape : list Z) (elements : list T) : outcome Tensor :=
  initialize fresh shape elements.

(** [initialize] called on an existing object, keeping the members when the
    call throws.  The body assigns [shape] before [calculate_total] runs,
    [total_elements] before [calculate_stride] runs and [stride] before the
    buffer is looked at; [resize] throws before it touches the buffer. *)
Definition initialize_object
  (this : Tensor) (input_shape : list Z) (input_elements : list T) : completion Tensor :=
  match calculate_total input_shape with
  | Throws e =>
      Raises e (mkTensor input_shape (stride this) (elements this) (total_elements this))
  | Undefined => NoResult
  | Returns total =>
      let total_elements := to_size_t total in
      match calculate_stride input_shape (size_t_to_int total_elements) with
      | Throws e =>
          Raises e (mkTensor input_shape (stride this) (elements this) total_elements)
      | Undefined => NoResult
      | Returns stride =>
          match input_elements with
          | [] =>
              match vec_resize (elements this) total_elements with
              | Returns elements =>
                  Completes (mkTensor input_shape stride elements total_elements)
              | Throws e =>
                  Raises e (mkTensor input_shape stride (elements this) total_elements)
              | Undefined => NoResult
              end
          | _ :: _ =>
              if negb (vec_size input_elements =? total_elements)
              then Raises (logic_error "Input data size does not match tensor shape")
                     (mkTensor input_shape stride (elements this) total_elements)
              else Completes (mkTensor input_shape stride input_elements total_elements)
          end
      end
  end.

(** The loop of [at]: [n] iterations remain, [i] is the loop variable. *)
Fixpoint at_loop (this : Tensor) (position : list Z) (n i : nat) (flat_index : Z)
  : outcome Z :=
  match n with
  | O => Returns flat_index
  | S n' =>
      p <- vec_get position i ;
      s <- vec_get (shape this) i ;
      if p >=? s then Throws (out_of_range "Position index out of bounds")
      else
        st <- vec_get (stride this) i ;
        at_loop this position n' (S i) (size_add flat_index (int_mul p st))
  end.

(** The value of [flat_index] after the loop of [at]. *)
Definition flat_index_of (this : Tensor) (position : list Z) : outcome Z :=
  at_loop this position (length (shape this)) 0 0.

(** [T Tensor<T>::at(const std::vector<int>& position, char print_mode = 'N') const],
    threading [std::cout]; named [at_] because [at] is reserved. *)
Definition at_ (this : Tensor) (position : list Z) (print_mode : ascii) (cout : list T)
  : outcome (T * list T) :=
  if negb (length position =? length (shape this))%nat
  then Throws (invalid_argument "Position input should match shape dimensions")
  else
    flat_index <- flat_index_of this position ;
    cout' <- (if Ascii.eqb print_mode "Y"
              then e <- vec_index (elements this) flat_index ;
                   Returns (cout ++ [e])
              else Returns cout) ;
    e <- vec_index (elements this) flat_index ;
    Returns (e, cout').

(** [Tensor<T> Tensor<T>::element_wise_apply(Func operation) const] *)
Definition element_wise_apply (this : Tensor) (operation : T -> T) : outcome Tensor :=
  let new_elements :=
    foldl (fun acc element => acc ++ [operation element]) [] (elements this) in
  Tensor_ctor (shape this) new_elements.

(** [get_shape], [get_elements] and [get_total_elements]. *)
Definition get_shape (this : Tensor) : list Z := shape this.
Definition get_elements (this : Tensor) : list T := elements this.
Definition get_total_elements (this : Tensor) : Z := total_elements this.

End TensorT.

Arguments Tensor T : clear implicits.
Arguments mkTensor {T} shape stride elements total_elements.

(** ** Reference notions of the specification *)

(** The mathematical product of the entries of a shape. *)
Definition product (S : list Z) : Z := foldr Z.mul 1 S.

(** [Σ_i c[i] * st[i]], over the integers. *)
Definition dot (c st : list Z) : Z := foldr Z.add 0 (zip_with Z.mul c st).

(** Row-major strides: the stride of a dimension is the product of the
    sizes of the dimensions after it. *)
Fixpoint row_major_strides (S : list Z) : list Z :=
  match S with
  | [] => []
  | _ :: S' => product S' :: row_major_strides S'
  end.

(** A coordinate [c] is valid for [S] when it has the rank of [S] and
    [0 <= c[i] < S[i]] for every [i]. *)
Definition valid_coordinate (S c : list Z) : Prop :=
  Forall2 (fun ci si => 0 <= ci < si) c S.

(** All valid coordinates of [S] in row-major order: the last dimension
    varies fastest. *)
Fixpoint coordinates (S : list Z) : list (list Z) :=
  match S with
  | [] => [[]]
  | d :: S' =>
      mbind (fun c0 => cons c0 <$> coordinates S') (seqZ 0 d)
  end.

(** Lexicographic order on coordinates of one rank. *)
Fixpoint lex_lt (c c' : list Z) : Prop :=
  match c, c' with
  | x :: c1, y :: c2 => x < y \/ (x = y /\ lex_lt c1 c2)
  | _, _ => False
  end.

(** The invariants of the data model.  The rank is [length (shape t)]; the
    last clause speaks of shapes whose product is an [int]. *)
Definition layout_invariant {T : Type} (t : Tensor T) : Prop :=
  length (stride t) = length (shape t) /\
  total_elements t = vec_size (elements t) /\
  (Forall (Z.lt 0) (shape t) -> product (shape t) <= INT_MAX ->
   total_elements t = product (shape t)).

(** The tensor of the specification's example: shape [2, 3] over the buffer
    [0 .. 5]. *)
Definition tensor_2x3 : Tensor Z := mkTensor [2; 3] [3; 1] [0; 1; 2; 3; 4; 5] 6.

(** ** Auxiliary form of the loop of [at] *)

(** The loop of [at] with the three vectors consumed in step; [at_loop]
    from index [i] is this walk over what remains of them from [i] on. *)
Fixpoint at_steps (c S st : list Z) (flat_index : Z) {struct S} : outcome Z :=
  match S with
  | [] => Returns flat_index
  | s :: S' =>
      match c with
      | [] => Undefined
      | p :: c' =>
          if p >=? s then Throws (out_of_range "Position index out of bounds")
          else
            match st with
            | [] => Undefined
            | x :: st' => at_steps c' S' st' (size_add flat_index (int_mul p x))
            end
      end
  end.

(** ** Arithmetic of the machine types *)

(** Exposes the numeric limits to [lia]. *)
Ltac limits := unfold INT_MIN, INT_MAX, SIZE_MODULUS, vector_max_size in *.

Lemma wrap_int_small (z : Z) : INT_MIN <= z <= INT_MAX -> wrap_int z = z.
Proof.
  unfold INT_MIN, INT_MAX, wrap_int. intros Hz.
  rewrite Z.mod_small; lia.
Qed.

Lemma to_size_t_small (z : Z) : 0 <= z < SIZE_MODULUS -> to_size_t z = z.
Proof. intros Hz. unfold to_size_t. apply Z.mod_small. exact Hz. Qed.

Lemma product_cons (d : Z) (S : list Z) : product (d :: S) = d * product S.
Proof. reflexivity. Qed.

Lemma product_pos (S : list Z) : Forall (Z.lt 0) S -> 0 < product S.
Proof.
  induction 1 as [|d S Hd _ IH]; [reflexivity|].
  rewrite product_cons. lia.
Qed.

Lemma int_div_pos (a d : Z) : 0 < d -> int_div a d = Returns (Z.quot a d).
Proof.
  intros Hd. unfold int_div.
  destruct (Z.eqb_spec d 0) as [-> | _]; [lia|].
  destruct (Z.eqb_spec d (-1)) as [-> | _]; [lia|].
  now rewrite andb_false_r.
Qed.

(** ** [calculate_total] *)

Lemma foldl_int_mul_exact (rest : list Z) (a : Z) :
  Forall (Z.lt 0) rest -> 0 < a -> a * product rest <= INT_MAX ->
  foldl int_mul a rest = a * product rest.
Proof.
  intros Hrest. revert a.
  induction Hrest as [|d rest Hd Hrest IH]; intros a Ha Hfit; simpl.
  - lia.
  - pose proof (product_pos rest Hrest) as Hp.
    rewrite product_cons in Hfit.
    assert (Hsmall : int_mul a d = a * d).
    { unfold int_mul. apply wrap_int_small.
      assert (0 < a * d) by nia.
      assert (a * d <= a * d * product rest) by nia.
      limits; lia. }
    rewrite Hsmall, IH; [ring | nia | lia].
Qed.

Lemma calculate_total_exact (S : list Z) :
  S <> [] -> Forall (Z.lt 0) S -> product S <= INT_MAX ->
  calculate_total S = Returns (product S).
Proof.
  intros Hne Hpos Hfit. destruct S as [|d rest]; [congruence|].
  inversion Hpos as [|? ? Hd Hrest]; subst.
  unfold calculate_total. f_equal.
  apply foldl_int_mul_exact; assumption.
Qed.

(** C3 (amended). For every non-empty shape [S] of positive integers whose
    product is at most [INT_MAX], [calculate_total S] returns the
    mathematical product of the entries of [S]. *)
Theorem calculate_total_is_product (S : list Z) :
  S <> [] -> Forall (Z.lt 0) S -> product S <= INT_MAX ->
  calculate_total S = Returns (product S).
Proof.
  intros Hne Hpos Hfit.
  destruct S as [|shape0 rest]; [congruence|].
  apply Forall_cons in Hpos as [Hshape0 Hrest].
  cbn [calculate_total]. f_equal.
  rewrite product_cons in Hfit |- *.
  now apply foldl_int_mul_exact.
Qed.

Lemma calculate_total_is_product_witness :
  calculate_total [2; 3; 4] = Returns (product [2; 3; 4]).
Proof.
  apply (calculate_total_is_product [2; 3; 4]).
  - discriminate.
  - repeat constructor.
  - vm_compute. discriminate.
Defined.

(** C3, as stated, fails once the product leaves the range of [int]: the
    shape [65536, 65536] has only positive entries and product [2^32], and
    the running [int] total ends at [0]. *)
Lemma calculate_total_overflow :
  Forall (Z.lt 0) [65536; 65536] /\
  calculate_total [65536; 65536] = Returns 0 /\
  product [65536; 65536] = 4294967296.
Proof. split; [repeat constructor | split; reflexivity]. Qed.

(** ** [calculate_stride] *)

Lemma stride_loop_exact (S acc : list Z) :
  Forall (Z.lt 0) S ->
  stride_loop S acc (product S) = Returns (acc ++ row_major_strides S).
Proof.
  intros HS. revert acc.
  induction HS as [|d S Hd HS IH]; intros acc; simpl.
  - now rewrite app_nil_r.
  - change (foldr Z.mul 1 S) with (product S).
    rewrite int_div_pos by exact Hd. simpl.
    replace (Z.quot (d * product S) d) with (product S)
      by (rewrite Z.mul_comm, Z.quot_mul; lia).
    rewrite IH, <- app_assoc. reflexivity.
Qed.

Lemma stride_loop_returns (S acc : list Z) (total : Z) :
  Forall (Z.lt 0) S -> exists st, stride_loop S acc total = Returns st.
Proof.
  intros HS. revert acc total.
  induction HS as [|d S Hd HS IH]; intros acc total; simpl.
  - eauto.
  - rewrite int_div_pos by exact Hd. simpl. apply IH.
Qed.

Lemma calculate_stride_nonempty (S : list Z) (total : Z) :
  S <> [] ->
  calculate_stride S total =
  (total' <- (if total =? 0 then calculate_total S else Returns total) ;
   stride_loop S [] total').
Proof. destruct S; [congruence | reflexivity]. Qed.

Lemma calculate_stride_exact (S : list Z) (total : Z) :
  S <> [] -> Forall (Z.lt 0) S -> product S <= INT_MAX ->
  total = 0 \/ total = product S ->
  calculate_stride S total = Returns (row_major_strides S).
Proof.
  intros Hne Hpos Hfit Htotal.
  assert (Hloop : stride_loop S [] (product S) = Returns (row_major_strides S))
    by (rewrite stride_loop_exact by exact Hpos; reflexivity).
  rewrite calculate_stride_nonempty by exact Hne.
  destruct (Z.eqb_spec total 0) as [-> | Hnz].
  - rewrite calculate_total_exact by assumption. exact Hloop.
  - destruct Htotal as [? | ->]; [lia|]. exact Hloop.
Qed.

Lemma last_row_major_strides (S : list Z) :
  S <> [] -> last (row_major_strides S) = Some 1.
Proof.
  induction S as [|d S IH]; [congruence|]. intros _.
  destruct S as [|d' S']; [reflexivity|].
  change (row_major_strides (d :: d' :: S'))
    with (product (d' :: S') :: row_major_strides (d' :: S')).
  rewrite last_cons, IH by discriminate. reflexivity.
Qed.

Lemma dot_cons (c0 s0 : Z) (c st : list Z) :
  dot (c0 :: c) (s0 :: st) = c0 * s0 + dot c st.
Proof. reflexivity. Qed.

Lemma dot_max_coordinate (S : list Z) :
  dot ((fun d => d - 1) <$> S) (row_major_strides S) = product S - 1.
Proof.
  induction S as [|d S IH]; [reflexivity|].
  rewrite fmap_cons. simpl row_major_strides.
  rewrite dot_cons, IH, product_cons. ring.
Qed.

(** C2 (amended). For every non-empty shape [S] of positive integers whose
    product is at most [INT_MAX], [calculate_stride S] (total omitted)
    returns the row-major strides of [S]: the last stride is [1], and
    [Σ_i (S[i] - 1) * stride[i]] is [calculate_total S - 1]. *)
Theorem calculate_stride_row_major (S : list Z) :
  S <> [] -> Forall (Z.lt 0) S -> product S <= INT_MAX ->
  exists st total,
    calculate_stride S 0 = Returns st /\
    calculate_total S = Returns total /\
    st = row_major_strides S /\
    last st = Some 1 /\
    dot ((fun d => d - 1) <$> S) st = total - 1.
Proof.
  intros Hne Hpos Hfit.
  exists (row_major_strides S), (product S).
  split; [apply calculate_stride_exact; auto|].
  split; [apply calculate_total_exact; assumption|].
  split; [reflexivity|].
  split; [apply last_row_major_strides; assumption|].
  apply dot_max_coordinate.
Qed.

Lemma calculate_stride_row_major_witness :
  exists st total,
    calculate_stride [2; 2; 2] 0 = Returns st /\
    calculate_total [2; 2; 2] = Returns total /\
    st = row_major_strides [2; 2; 2] /\
    last st = Some 1 /\
    dot ((fun d => d - 1) <$> [2; 2; 2]) st = total - 1.
Proof.
  apply (calculate_stride_row_major [2; 2; 2]).
  - discriminate.
  - repeat constructor.
  - vm_compute. discriminate.
Defined.

(** C2, as stated, fails once the product leaves the range of [int]: for
    the shape [65536, 65536] the total is [0], every stride is [0], and the
    last stride is not [1]. *)
Lemma calculate_stride_overflow :
  Forall (Z.lt 0) [65536; 65536] /\
  calculate_stride [65536; 65536] 0 = Returns [0; 0] /\
  last [0; 0] = Some 0.
Proof. split; [repeat constructor | split; reflexivity]. Qed.

(** C9. For every non-empty shape [S] of positive integers,
    [calculate_stride] called with the total that [calculate_total S]
    returns gives the stride table it gives with the total omitted (zero). *)
Theorem calculate_stride_precomputed_total (S : list Z) :
  S <> [] -> Forall (Z.lt 0) S ->
  exists total st,
    calculate_total S = Returns total /\
    calculate_stride S total = Returns st /\
    calculate_stride S 0 = Returns st.
Proof.
  intros Hne Hpos.
  destruct S as [|shape0 rest] eqn:ES; [congruence|]. rewrite <- ES in *.
  set (total := foldl int_mul shape0 rest).
  assert (Htotal : calculate_total S = Returns total) by (subst S; reflexivity).
  destruct (stride_loop_returns S [] total Hpos) as [st Hst].
  exists total, st. split; [exact Htotal|].
  assert (Hzero : calculate_stride S 0 = Returns st).
  { rewrite calculate_stride_nonempty by exact Hne.
    cbn [Z.eqb]. rewrite Htotal. exact Hst. }
  split; [|exact Hzero].
  destruct (Z.eqb_spec total 0) as [-> | Hnz]; [exact Hzero|].
  rewrite calculate_stride_nonempty by exact Hne.
  apply Z.eqb_neq in Hnz. rewrite Hnz. exact Hst.
Qed.

Lemma calculate_stride_precomputed_total_witness :
  exists total st,
    calculate_total [2; 3] = Returns total /\
    calculate_stride [2; 3] total = Returns st /\
    calculate_stride [2; 3] 0 = Returns st.
Proof.
  apply (calculate_stride_precomputed_total [2; 3]).
  - discriminate.
  - repeat constructor.
Defined.

(** ** Outcomes: inversion of sequenced calls *)

Lemma bind_returns {A B : Type} (m : outcome A) (k : A -> outcome B) (b : B) :
  (x <- m ; k x) = Returns b -> exists a, m = Returns a /\ k a = Returns b.
Proof. destruct m as [a| |]; simpl; [eauto | discriminate | discriminate]. Qed.

Lemma int_div_no_throw (a b : Z) (e : exception) : int_div a b <> Throws e.
Proof.
  unfold int_div.
  destruct (b =? 0); [discriminate|].
  destruct ((a =? INT_MIN) && (b =? -1)); discriminate.
Qed.

Lemma stride_loop_no_throw (S acc : list Z) (total : Z) (e : exception) :
  stride_loop S acc total <> Throws e.
Proof.
  revert acc total.
  induction S as [|d S IH]; intros acc total; simpl; [discriminate|].
  pose proof (int_div_no_throw total d e) as Hdiv.
  destruct (int_div total d) as [q| |]; simpl; [apply IH | congruence | discriminate].
Qed.

Lemma stride_loop_length (S acc st : list Z) (total : Z) :
  stride_loop S acc total = Returns st ->
  length st = (length acc + length S)%nat.
Proof.
  revert acc total.
  induction S as [|d S IH]; intros acc total; simpl.
  - intros [= <-]. lia.
  - destruct (int_div total d) as [q| |]; simpl; [|discriminate..].
    intros Hloop. apply IH in Hloop. rewrite length_app in Hloop. simpl in Hloop. lia.
Qed.

Lemma calculate_stride_length (S st : list Z) (total : Z) :
  calculate_stride S total = Returns st -> length st = length S.
Proof.
  destruct S as [|d S]; [discriminate|].
  unfold calculate_stride.
  intros (total' & _ & Hloop)%bind_returns.
  now apply stride_loop_length in Hloop.
Qed.

(** A zero dimension makes [calculate_stride] divide by zero. *)
Lemma stride_loop_zero_dim (S acc : list Z) (total : Z) :
  0 ∈ S -> stride_loop S acc total = Undefined.
Proof.
  revert acc total.
  induction S as [|d S IH]; intros acc total Hin; [by apply elem_of_nil in Hin|].
  simpl. pose proof (int_div_no_throw total d) as Hthrow.
  destruct (int_div total d) as [q|e|] eqn:Hdiv; simpl; [| by destruct (Hthrow e) | done].
  apply elem_of_cons in Hin as [<- | Hin]; [discriminate Hdiv | by apply IH].
Qed.

(** ** Wrap-around of the running total *)

Lemma wrap_int_range (z : Z) : INT_MIN <= wrap_int z <= INT_MAX.
Proof.
  unfold wrap_int. limits.
  pose proof (Z.mod_pos_bound (z + 2 ^ 31) (2 ^ 32)). lia.
Qed.

Lemma wrap_int_mul_l (a b : Z) : wrap_int (wrap_int a * b) = wrap_int (a * b).
Proof.
  unfold wrap_int. f_equal.
  rewrite (Z.mod_eq (a + 2 ^ 31) (2 ^ 32)) by lia.
  replace ((a + 2 ^ 31 - 2 ^ 32 * ((a + 2 ^ 31) / 2 ^ 32) - 2 ^ 31) * b + 2 ^ 31)
    with (a * b + 2 ^ 31 + (- ((a + 2 ^ 31) / 2 ^ 32) * b) * 2 ^ 32) by ring.
  apply Z_mod_plus_full.
Qed.

Lemma foldl_int_mul_wrap (rest : list Z) (a : Z) :
  wrap_int a = a -> foldl int_mul a rest = wrap_int (a * product rest).
Proof.
  revert a. induction rest as [|d rest IH]; intros a Ha; simpl.
  - now rewrite Z.mul_1_r.
  - change (foldr Z.mul 1 rest) with (product rest).
    rewrite IH.
    + unfold int_mul. rewrite wrap_int_mul_l. f_equal. ring.
    + unfold int_mul. apply wrap_int_small, wrap_int_range.
Qed.

Lemma calculate_total_wrap (S : list Z) :
  S <> [] -> Forall is_int S ->
  calculate_total S = Returns (wrap_int (product S)).
Proof.
  intros Hne Hint. destruct S as [|d rest]; [congruence|].
  apply Forall_cons in Hint as [Hd _].
  cbn [calculate_total]. f_equal.
  apply foldl_int_mul_wrap, wrap_int_small, Hd.
Qed.

Lemma size_t_to_int_to_size_t (z : Z) :
  is_int z -> size_t_to_int (to_size_t z) = z.
Proof.
  intros Hz. unfold size_t_to_int, to_size_t, SIZE_MODULUS.
  rewrite <- (wrap_int_small z Hz) at 2. unfold wrap_int. f_equal.
  rewrite (Z.mod_eq z (2 ^ 64)) by lia.
  replace (z - 2 ^ 64 * (z / 2 ^ 64) + 2 ^ 31)
    with (z + 2 ^ 31 + (- (2 ^ 32 * (z / 2 ^ 64))) * 2 ^ 32) by ring.
  apply Z_mod_plus_full.
Qed.

(** ** Construction *)

Section Construction.

Context {T : Type} (T_default : T).

Lemma vec_resize_size (v v' : list T) (n : Z) :
  0 <= n -> vec_resize T_default v n = Returns v' -> vec_size v' = n.
Proof.
  intros Hn. unfold vec_resize.
  destruct (vector_max_size <? n); [discriminate|]. intros [= <-].
  unfold vec_size. rewrite length_app, length_take, length_replicate. lia.
Qed.

Lemma vec_resize_fresh (n : Z) :
  n <= vector_max_size ->
  vec_resize T_default [] n = Returns (replicate (Z.to_nat n) T_default).
Proof.
  intros Hn. unfold vec_resize.
  destruct (Z.ltb_spec vector_max_size n); [lia|].
  rewrite take_nil. simpl. now rewrite Nat.sub_0_r.
Qed.

Lemma to_size_t_range (z : Z) : 0 <= to_size_t z < SIZE_MODULUS.
Proof. unfold to_size_t, SIZE_MODULUS. apply Z.mod_pos_bound. lia. Qed.

(** What a returning [initialize] has computed. *)
Lemma initialize_returns (this : Tensor T) (S : list Z) (elems : list T) (t : Tensor T) :
  initialize T_default this S elems = Returns t ->
  exists total,
    calculate_total S = Returns total /\
    calculate_stride S (size_t_to_int (to_size_t total)) = Returns (stride t) /\
    shape t = S /\
    total_elements t = to_size_t total /\
    vec_size (elements t) = to_size_t total /\
    (elems <> [] -> elements t = elems).
Proof.
  unfold initialize.
  intros (total & Htotal & Hrest)%bind_returns.
  apply bind_returns in Hrest as (st & Hst & Hrest).
  exists total. split; [exact Htotal|].
  destruct elems as [|e elems].
  - apply bind_returns in Hrest as (v & Hv & [= <-]). simpl.
    apply vec_resize_size in Hv; [|apply to_size_t_range].
    repeat split; auto. congruence.
  - destruct (Z.eqb_spec (vec_size (e :: elems)) (to_size_t total)) as [Hsize|Hsize];
      simpl in Hrest; [|discriminate].
    injection Hrest as <-. simpl. repeat split; auto.
Qed.

(** Construction from a shape whose product fits [int]. *)
Lemma initialize_exact (this : Tensor T) (S : list Z) (elems : list T) :
  S <> [] -> Forall (Z.lt 0) S -> product S <= INT_MAX ->
  initialize T_default this S elems =
  match elems with
  | [] =>
      v <- vec_resize T_default (elements this) (product S) ;
      Returns (mkTensor S (row_major_strides S) v (product S))
  | _ :: _ =>
      if negb (vec_size elems =? product S) then Throws ShapeMismatch
      else Returns (mkTensor S (row_major_strides S) elems (product S))
  end.
Proof.
  intros Hne Hpos Hfit.
  pose proof (product_pos S Hpos) as Hp.
  assert (Hsize : to_size_t (product S) = product S)
    by (apply to_size_t_small; limits; lia).
  assert (Hint : size_t_to_int (product S) = product S)
    by (apply wrap_int_small; limits; lia).
  unfold initialize.
  rewrite calculate_total_exact by assumption. simpl.
  rewrite Hsize, Hint.
  rewrite calculate_stride_exact by auto. simpl.
  reflexivity.
Qed.

(** A returning construction from a buffer as long as the mathematical
    product of an [int] shape: the product fits [int]. *)
Lemma constructed_product_fits (this : Tensor T) (S : list Z) (elems : list T) (t : Tensor T) :
  S <> [] -> Forall (fun d => 0 < d <= INT_MAX) S ->
  vec_size elems = product S -> vec_size elems <= vector_max_size ->
  initialize T_default this S elems = Returns t ->
  product S <= INT_MAX.
Proof.
  intros Hne Hdims Hlen Hmax Hinit.
  assert (Hpos : Forall (Z.lt 0) S) by (eapply Forall_impl; [exact Hdims|]; simpl; lia).
  assert (Hint : Forall is_int S).
  { eapply Forall_impl; [exact Hdims|]. unfold is_int. simpl. limits. lia. }
  pose proof (product_pos S Hpos) as Hp.
  apply initialize_returns in Hinit as (total & Htotal & _ & _ & _ & Hsize & Helems).
  rewrite calculate_total_wrap in Htotal by assumption. injection Htotal as <-.
  assert (Hnonempty : elems <> []).
  { intros ->. unfold vec_size in Hlen. simpl in Hlen. lia. }
  rewrite (Helems Hnonempty), Hlen in Hsize.
  pose proof (wrap_int_range (product S)) as Hrange.
  destruct (Z.lt_ge_cases (wrap_int (product S)) 0) as [Hneg|Hnonneg].
  - exfalso. unfold to_size_t in Hsize.
    replace (wrap_int (product S))
      with (wrap_int (product S) + SIZE_MODULUS + (-1) * SIZE_MODULUS) in Hsize by ring.
    rewrite Z_mod_plus_full, Z.mod_small in Hsize; limits; lia.
  - rewrite to_size_t_small in Hsize by (limits; lia). lia.
Qed.

(** C4 (amended). Construction does not check the dimension sizes:
    it fails with [InvalidShape] exactly when the shape sequence is empty,
    and a shape with a zero dimension has no defined result (the stride
    computation divides by zero). *)
Theorem construction_InvalidShape_iff_empty (S : list Z) (elems : list T) :
  (Tensor_ctor T_default S elems = Throws InvalidShape <-> S = []) /\
  (In 0 S -> Tensor_ctor T_default S elems = Undefined).
Proof.
  unfold Tensor_ctor, initialize.
  destruct S as [|shape0 rest]; [split; [done | intros []]|].
  cbn [calculate_total bind].
  rewrite calculate_stride_nonempty by discriminate.
  set (total := foldl int_mul shape0 rest).
  set (total' := if size_t_to_int (to_size_t total) =? 0
                 then calculate_total (shape0 :: rest)
                 else Returns (size_t_to_int (to_size_t total))).
  assert (Htotal' : exists z, total' = Returns z)
    by (subst total'; destruct (_ =? 0); simpl; eauto).
  destruct Htotal' as [z ->]. cbn [bind].
  split.
  - split; [|discriminate].
    pose proof (stride_loop_no_throw (shape0 :: rest) [] z InvalidShape) as Hloop.
    destruct (stride_loop (shape0 :: rest) [] z) as [st| |]; cbn [bind];
      [|congruence|discriminate].
    destruct elems as [|e elems].
    + unfold vec_resize. destruct (vector_max_size <? to_size_t total); discriminate.
    + destruct (negb _); discriminate.
  - intros Hin%list_elem_of_In.
    now rewrite (stride_loop_zero_dim _ _ _ Hin).
Qed.

(** C6 (amended). Construction fails with [InvalidShape] when the shape
    sequence is empty.  For a shape of positive integers whose product is
    at most [INT_MAX], it fails with [ShapeMismatch] when a non-empty
    buffer's length differs from the product, and with the buffer omitted
    or empty it returns a tensor holding [total_elements] default-valued
    entries. *)
Theorem construction_outcomes (S : list Z) (elems : list T) :
  S <> [] -> Forall (Z.lt 0) S -> product S <= INT_MAX ->
  (forall buffer, Tensor_ctor T_default [] buffer = Throws InvalidShape) /\
  (elems <> [] -> vec_size elems <> product S ->
   Tensor_ctor T_default S elems = Throws ShapeMismatch) /\
  Tensor_ctor T_default S [] =
    Returns (mkTensor S (row_major_strides S)
               (replicate (Z.to_nat (product S)) T_default) (product S)).
Proof.
  intros Hne Hpos Hfit.
  split; [reflexivity|]. split.
  - intros Helems Hsize. unfold Tensor_ctor.
    rewrite initialize_exact by assumption.
    destruct elems as [|e elems]; [congruence|].
    apply Z.eqb_neq in Hsize. now rewrite Hsize.
  - unfold Tensor_ctor. rewrite initialize_exact by assumption.
    cbn [fresh elements]. rewrite vec_resize_fresh by (limits; lia).
    reflexivity.
Qed.

End Construction.

Lemma construction_outcomes_witness :
  Tensor_ctor 0 [2; 3] [1; 2; 3; 4; 5] = Throws ShapeMismatch /\
  Tensor_ctor 0 [2; 3] [] = Returns (mkTensor [2; 3] [3; 1] [0; 0; 0; 0; 0; 0] 6).
Proof.
  destruct (construction_outcomes 0 [2; 3] [1; 2; 3; 4; 5]) as (_ & Hmismatch & Hdefault).
  - discriminate.
  - repeat constructor.
  - vm_compute. discriminate.
  - split; [apply Hmismatch; [discriminate | vm_compute; discriminate] | exact Hdefault].
Defined.

(** C4, as stated, fails: the shape [-1, -1] has non-positive dimensions
    and construction returns a one-element tensor with strides [-1, 1]. *)
Lemma construction_accepts_negative_dims :
  Tensor_ctor 0 [-1; -1] [] = Returns (mkTensor [-1; -1] [-1; 1] [0] 1).
Proof. reflexivity. Qed.

(** C6, as stated, fails once the product leaves the range of [int]: the
    shape [641, 6700417] has product [2^32 + 1], its [int] total is [1], and
    a one-element buffer is accepted. *)
Lemma construction_overflow_accepts_buffer :
  Forall (Z.lt 0) [641; 6700417] /\
  product [641; 6700417] = 4294967297 /\
  vec_size [7] = 1 /\
  Tensor_ctor 0 [641; 6700417] [7] = Returns (mkTensor [641; 6700417] [0; 0] [7] 1).
Proof. split; [repeat constructor | repeat split]. Qed.

(** ** Coordinate access *)

Lemma vec_get_drop {A : Type} (v : list A) (i : nat) :
  match drop i v with
  | [] => vec_get v i = Undefined
  | x :: v' => vec_get v i = Returns x /\ drop (S i) v = v'
  end.
Proof.
  unfold vec_get. destruct (v !! i) as [x|] eqn:Hlookup.
  - rewrite (drop_S _ _ _ Hlookup). auto.
  - rewrite drop_ge by (now apply lookup_ge_None_1). reflexivity.
Qed.

Section Access.

Context {T : Type}.

Lemma at_loop_steps (t : Tensor T) (position : list Z) (n i : nat) (acc : Z) :
  n = length (drop i (shape t)) ->
  at_loop t position n i acc =
  at_steps (drop i position) (drop i (shape t)) (drop i (stride t)) acc.
Proof.
  revert i acc. induction n as [|n IH]; intros i acc Hn.
  - destruct (drop i (shape t)); [reflexivity | discriminate].
  - pose proof (vec_get_drop (shape t) i) as Hshape.
    destruct (drop i (shape t)) as [|s S'] eqn:HS; [discriminate|].
    destruct Hshape as [Hs HS'].
    pose proof (vec_get_drop position i) as Hpos.
    cbn [at_loop at_steps].
    destruct (drop i position) as [|p c']; [now rewrite Hpos|].
    destruct Hpos as [-> Hc']. cbn [bind]. rewrite Hs. cbn [bind].
    destruct (p >=? s); [reflexivity|].
    pose proof (vec_get_drop (stride t) i) as Hstride.
    destruct (drop i (stride t)) as [|x st']; [now rewrite Hstride|].
    destruct Hstride as [-> Hst']. cbn [bind].
    rewrite IH by (rewrite HS'; simpl in Hn; lia).
    now rewrite Hc', HS', Hst'.
Qed.

Lemma flat_index_of_steps (t : Tensor T) (position : list Z) :
  flat_index_of t position = at_steps position (shape t) (stride t) 0.
Proof. unfold flat_index_of. now rewrite at_loop_steps by reflexivity. Qed.

End Access.

(** *** Row-major offsets of valid coordinates *)

Lemma dot_row_major_range (S c : list Z) :
  valid_coordinate S c -> 0 <= dot c (row_major_strides S) < product S.
Proof.
  unfold valid_coordinate. induction 1 as [|c0 d c S Hc0 Hc IH].
  - unfold dot, product. simpl. lia.
  - simpl row_major_strides. rewrite dot_cons, product_cons. nia.
Qed.

Lemma dot_row_major_inj (S c c' : list Z) :
  valid_coordinate S c -> valid_coordinate S c' ->
  dot c (row_major_strides S) = dot c' (row_major_strides S) -> c = c'.
Proof.
  unfold valid_coordinate. intros Hc. revert c'.
  induction Hc as [|c0 d c S Hc0 Hc IH]; intros c' Hc' Heq.
  - now inversion Hc'.
  - inversion Hc' as [|c0' ? c1' ? Hc0' Hc1']; subst.
    simpl row_major_strides in Heq. rewrite !dot_cons in Heq.
    pose proof (dot_row_major_range S c Hc) as Hr.
    pose proof (dot_row_major_range S c1' Hc1') as Hr'.
    assert (c0 = c0') by nia. subst c0'.
    f_equal. apply IH; [assumption | lia].
Qed.

Lemma at_steps_row_major (S c : list Z) (acc : Z) :
  valid_coordinate S c -> product S <= INT_MAX ->
  0 <= acc -> acc + product S <= SIZE_MODULUS ->
  at_steps c S (row_major_strides S) acc =
  Returns (acc + dot c (row_major_strides S)).
Proof.
  unfold valid_coordinate. intros Hc. revert acc.
  induction Hc as [|c0 d c S Hc0 Hc IH]; intros acc Hfit Hacc Hroom.
  - unfold dot. simpl. now rewrite Z.add_0_r.
  - pose proof (dot_row_major_range S c Hc) as Hr.
    rewrite product_cons in Hfit, Hroom.
    simpl row_major_strides. cbn [at_steps].
    destruct (Z.geb_spec c0 d) as [?|_]; [lia|].
    assert (Hmul : int_mul c0 (product S) = c0 * product S).
    { unfold int_mul. apply wrap_int_small. limits. nia. }
    assert (Hadd : size_add acc (c0 * product S) = acc + c0 * product S).
    { unfold size_add. rewrite (to_size_t_small (c0 * product S)) by (limits; nia).
      apply to_size_t_small. limits. nia. }
    rewrite Hmul, Hadd, IH by nia.
    rewrite dot_cons. f_equal. ring.
Qed.

(** *** The row-major enumeration of coordinates *)

Lemma coordinates_cons (d : Z) (S : list Z) :
  coordinates (d :: S) = mbind (fun c0 => cons c0 <$> coordinates S) (seqZ 0 d).
Proof. reflexivity. Qed.

Lemma valid_coordinate_enumerated (S c : list Z) :
  valid_coordinate S c <-> c ∈ coordinates S.
Proof.
  unfold valid_coordinate. revert c. induction S as [|d S IH]; intros c.
  - simpl. rewrite list_elem_of_singleton. split.
    + now inversion 1.
    + intros ->. constructor.
  - rewrite coordinates_cons, list_elem_of_bind. split.
    + inversion 1 as [|c0 ? c1 ? Hc0 Hc1]; subst.
      exists c0. split.
      * apply list_elem_of_fmap. exists c1. split; [reflexivity | now apply IH].
      * apply elem_of_seqZ. lia.
    + intros (c0 & (c1 & -> & Hc1)%list_elem_of_fmap & Hc0%elem_of_seqZ).
      constructor; [lia | now apply IH].
Qed.

(** Block [n] of the enumeration covers the offsets [n * P .. n * P + P). *)
Lemma fmap_dot_blocks (n : nat) (P : Z) (st : list Z) (L : list (list Z)) :
  0 <= P ->
  (fun c => dot c st) <$> L = seqZ 0 P ->
  (fun c => dot c (P :: st))
    <$> mbind (fun c0 => cons c0 <$> L) (seqZ 0 (Z.of_nat n))
  = seqZ 0 (Z.of_nat n * P).
Proof.
  intros HP HL. induction n as [|n IH]; [reflexivity|].
  rewrite seqZ_S, bind_app, fmap_app, IH, bind_singleton.
  rewrite <- list_fmap_compose.
  replace (Z.of_nat (S n) * P) with (Z.of_nat n * P + P) by lia.
  rewrite seqZ_app by nia. f_equal.
  replace (0 + Z.of_nat n * P) with (Z.of_nat n * P + 0) by lia.
  rewrite <- fmap_add_seqZ, <- HL, <- list_fmap_compose.
  apply list_fmap_ext. intros _ c _. simpl. rewrite dot_cons. lia.
Qed.

Lemma fmap_dot_coordinates (S : list Z) :
  Forall (Z.lt 0) S ->
  (fun c => dot c (row_major_strides S)) <$> coordinates S = seqZ 0 (product S).
Proof.
  induction 1 as [|d S Hd HS IH]; [reflexivity|].
  rewrite coordinates_cons, product_cons. simpl row_major_strides.
  rewrite <- (Z2Nat.id d) by lia.
  apply fmap_dot_blocks; [pose proof (product_pos S HS); lia | exact IH].
Qed.

Section ReadBack.

Context {T : Type}.

(** Reading the buffer at the offsets [0 .. size) returns it in order. *)
Lemma vec_index_seqZ (elems cout : list T) :
  (fun k => e <- vec_index elems k ; Returns (e, cout)) <$> seqZ 0 (vec_size elems)
  = (fun e => Returns (e, cout)) <$> elems.
Proof.
  apply list_eq. intros i. rewrite !list_lookup_fmap. unfold vec_size.
  destruct (decide (i < length elems)%nat) as [Hi|Hi].
  - rewrite lookup_seqZ_lt by lia.
    destruct (lookup_lt_is_Some_2 elems i Hi) as [e He].
    rewrite He. simpl. f_equal. unfold vec_index, vec_size, vec_get.
    replace (0 + Z.of_nat i) with (Z.of_nat i) by lia. rewrite Nat2Z.id, He.
    destruct (Z.leb_spec 0 (Z.of_nat i)); [|lia].
    destruct (Z.ltb_spec (Z.of_nat i) (Z.of_nat (length elems))); [|lia].
    reflexivity.
  - rewrite lookup_seqZ_ge by lia.
    rewrite lookup_ge_None_2 by lia. reflexivity.
Qed.

(** [at] on a row-major tensor whose layout fits [int]. *)
Lemma at_row_major (S c : list Z) (elems cout : list T) (print_mode : ascii) :
  valid_coordinate S c -> product S <= INT_MAX ->
  let t := mkTensor S (row_major_strides S) elems (product S) in
  flat_index_of t c = Returns (dot c (row_major_strides S)) /\
  at_ t c print_mode cout =
    (e <- vec_index elems (dot c (row_major_strides S)) ;
     Returns (e, if Ascii.eqb print_mode "Y" then cout ++ [e] else cout)).
Proof.
  intros Hc Hfit t.
  assert (Hflat : flat_index_of t c = Returns (dot c (row_major_strides S))).
  { rewrite flat_index_of_steps. subst t. cbn [shape stride].
    rewrite at_steps_row_major by (auto; limits; lia). reflexivity. }
  split; [exact Hflat|].
  unfold at_. rewrite Hflat. subst t. cbn [shape elements bind].
  rewrite (Forall2_length _ _ _ Hc), Nat.eqb_refl. cbn [negb].
  destruct (Ascii.eqb print_mode "Y"); [|reflexivity].
  destruct (vec_index elems (dot c (row_major_strides S))); reflexivity.
Qed.

End ReadBack.

(** ** [at] on constructed tensors *)

Section At.

Context {T : Type} (T_default : T).

(** A tensor constructed from an [int] shape of positive sizes and a buffer
    as long as the product of the shape is the row-major tensor over that
    buffer, and its layout fits [int]. *)
Lemma constructed_row_major (S : list Z) (elems : list T) (t : Tensor T) :
  S <> [] -> Forall (fun d => 0 < d <= INT_MAX) S ->
  vec_size elems = product S -> vec_size elems <= vector_max_size ->
  Tensor_ctor T_default S elems = Returns t ->
  product S <= INT_MAX /\
  t = mkTensor S (row_major_strides S) elems (product S).
Proof.
  intros Hne Hdims Hlen Hmax Hctor.
  pose proof (constructed_product_fits T_default _ S elems t Hne Hdims Hlen Hmax Hctor)
    as Hfit.
  split; [exact Hfit|].
  assert (Hpos : Forall (Z.lt 0) S) by (eapply Forall_impl; [exact Hdims|]; simpl; lia).
  unfold Tensor_ctor in Hctor. rewrite initialize_exact in Hctor by assumption.
  destruct elems as [|e elems].
  - pose proof (product_pos S Hpos). unfold vec_size in Hlen. simpl in Hlen. lia.
  - rewrite Hlen, Z.eqb_refl in Hctor. simpl in Hctor. congruence.
Qed.

(** C1. For a tensor constructed from a non-empty shape [S] of positive
    [int] sizes and an element buffer whose length is the product of [S]
    (a [std::vector], so of at most [vector_max_size] entries): reading every valid coordinate with [at], in row-major order, gives the
    buffer back; the enumeration holds exactly the valid coordinates; for a
    valid coordinate [c] the flat index is [Σ_i c[i] * stride[i]] and lies in
    [0, total_elements); and distinct valid coordinates have distinct flat
    indices. *)
Theorem at_round_trip (S : list Z) (elems : list T) (t : Tensor T) :
  S <> [] -> Forall (fun d => 0 < d <= INT_MAX) S ->
  vec_size elems = product S -> vec_size elems <= vector_max_size ->
  Tensor_ctor T_default S elems = Returns t ->
  (fun c => at_ t c "N" []) <$> coordinates S = (fun e => Returns (e, [])) <$> elems /\
  (forall c, valid_coordinate S c <-> c ∈ coordinates S) /\
  (forall c, valid_coordinate S c ->
     flat_index_of t c = Returns (dot c (stride t)) /\
     0 <= dot c (stride t) < total_elements t) /\
  (forall c c', valid_coordinate S c -> valid_coordinate S c' ->
     flat_index_of t c = flat_index_of t c' -> c = c').
Proof.
  intros Hne Hdims Hlen Hmax Hctor.
  destruct (constructed_row_major S elems t Hne Hdims Hlen Hmax Hctor) as [Hfit ->].
  assert (Hpos : Forall (Z.lt 0) S) by (eapply Forall_impl; [exact Hdims|]; simpl; lia).
  cbn [stride total_elements].
  split; [|split; [|split]].
  - transitivity ((fun c => e <- vec_index elems (dot c (row_major_strides S)) ;
                            Returns (e, @nil T)) <$> coordinates S).
    + apply Forall_fmap_ext_1, Forall_forall.
      intros c Hc%valid_coordinate_enumerated.
      now destruct (at_row_major S c elems (@nil T) "N" Hc Hfit) as [_ ->].
    + rewrite (list_fmap_compose (fun c => dot c (row_major_strides S))
                 (fun k => e <- vec_index elems k ; Returns (e, @nil T))).
      rewrite fmap_dot_coordinates by exact Hpos.
      rewrite <- Hlen. apply vec_index_seqZ.
  - apply valid_coordinate_enumerated.
  - intros c Hc. split; [|now apply dot_row_major_range].
    now destruct (at_row_major S c elems (@nil T) "N" Hc Hfit) as [-> _].
  - intros c c' Hc Hc'.
    destruct (at_row_major S c elems (@nil T) "N" Hc Hfit) as [-> _].
    destruct (at_row_major S c' elems (@nil T) "N" Hc' Hfit) as [-> _].
    intros [= Heq]. now apply (dot_row_major_inj S).
Qed.

(** C10. The element [at] returns does not depend on [print_mode]: the
    outcomes for any two modes agree up to what is written to the output
    stream, and where ['N'] returns [e] and leaves the stream alone, ['Y']
    returns the same [e] after writing it. *)
Theorem at_print_mode_independent
  (t : Tensor T) (position : list Z) (mode1 mode2 : ascii) (cout : list T) :
  outcome_map fst (at_ t position mode1 cout)
  = outcome_map fst (at_ t position mode2 cout) /\
  (forall e cout', at_ t position "N" cout = Returns (e, cout') <->
                   cout' = cout /\ at_ t position "Y" cout = Returns (e, cout ++ [e])).
Proof.
  unfold at_.
  destruct (negb (length position =? length (shape t))%nat).
  { split; [reflexivity|]. intros e cout'. split; [discriminate | intros [_ [=]]]. }
  destruct (flat_index_of t position) as [flat_index|exn|]; cbn [bind].
  2, 3: split; [reflexivity|]; intros e cout'; split; [discriminate | intros [_ [=]]].
  change (Ascii.eqb "Y" "Y") with true. change (Ascii.eqb "N" "Y") with false.
  destruct (vec_index (elements t) flat_index) as [x|exn|]; cbn [bind outcome_map fst].
  - split.
    + destruct (Ascii.eqb mode1 "Y"), (Ascii.eqb mode2 "Y"); reflexivity.
    + intros e cout'. split.
      * intros [= <- <-]. auto.
      * intros [-> [= <-]]. reflexivity.
  - split.
    + destruct (Ascii.eqb mode1 "Y"), (Ascii.eqb mode2 "Y"); reflexivity.
    + intros e cout'; split; [discriminate | intros [_ [=]]].
  - split.
    + destruct (Ascii.eqb mode1 "Y"), (Ascii.eqb mode2 "Y"); reflexivity.
    + intros e cout'; split; [discriminate | intros [_ [=]]].
Qed.

End At.

Lemma at_round_trip_witness :
  (fun c => at_ tensor_2x3 c "N" []) <$> coordinates [2; 3]
  = (fun e => Returns (e, [])) <$> [0; 1; 2; 3; 4; 5].
Proof.
  apply (at_round_trip 0 [2; 3] [0; 1; 2; 3; 4; 5] tensor_2x3).
  - discriminate.
  - repeat constructor; limits; lia.
  - reflexivity.
  - vm_compute. discriminate.
  - reflexivity.
Defined.

(** What [at] does reject: a position of the wrong rank, and a position
    with a component at or above the size of its dimension.  The check has
    no lower bound. *)
Lemma at_steps_rejects (S c st : list Z) (acc : Z) :
  length c = length S -> length st = length S -> ~ Forall2 Z.lt c S ->
  at_steps c S st acc = Throws IndexOutOfRange.
Proof.
  revert c st acc. induction S as [|s S IH]; intros c st acc Hc Hst Hnot.
  - destruct c; [|discriminate]. exfalso. apply Hnot. constructor.
  - destruct c as [|p c]; [discriminate|]. destruct st as [|x st]; [discriminate|].
    cbn [at_steps]. destruct (Z.geb_spec p s) as [Hge|Hlt]; [reflexivity|].
    apply IH; [simpl in *; lia | simpl in *; lia |].
    intros Hall. apply Hnot. now constructor.
Qed.

Lemma at_rejections {T : Type} (t : Tensor T) (position : list Z)
  (print_mode : ascii) (cout : list T) :
  length (stride t) = length (shape t) ->
  (length position <> length (shape t) ->
   at_ t position print_mode cout = Throws RankMismatch) /\
  (length position = length (shape t) -> ~ Forall2 Z.lt position (shape t) ->
   at_ t position print_mode cout = Throws IndexOutOfRange).
Proof.
  intros Hstride. unfold at_. split.
  - intros Hrank%Nat.eqb_neq. now rewrite Hrank.
  - intros Hrank Hnot. rewrite Hrank, Nat.eqb_refl. cbn [negb].
    rewrite flat_index_of_steps, at_steps_rejects by assumption. reflexivity.
Qed.

(** C5 at a negative coordinate.  On the tensor of shape [2, 3] over
    [0 .. 5], [at({1, -1})] is not rejected: it returns the element at flat
    index [2]; and [at({-1, 0})] reads the buffer at [2^64 - 3]. *)
Lemma at_negative_coordinate :
  Tensor_ctor 0 [2; 3] [0; 1; 2; 3; 4; 5] = Returns tensor_2x3 /\
  at_ tensor_2x3 [1; -1] "N" [] = Returns (2, []) /\
  flat_index_of tensor_2x3 [-1; 0] = Returns (2 ^ 64 - 3) /\
  at_ tensor_2x3 [-1; 0] "N" [] = Undefined.
Proof. repeat split. Qed.

(** ** [element_wise_apply] and the layout invariants *)

Section Transform.

Context {T : Type} (T_default : T).

Lemma push_back_each (operation : T -> T) (elems acc : list T) :
  foldl (fun acc element => acc ++ [operation element]) acc elems
  = acc ++ (operation <$> elems).
Proof.
  revert acc. induction elems as [|e elems IH]; intros acc; simpl.
  - now rewrite app_nil_r.
  - rewrite IH, <- app_assoc. reflexivity.
Qed.

Lemma initialize_invariant (this : Tensor T) (S : list Z) (elems : list T) (t : Tensor T) :
  initialize T_default this S elems = Returns t -> layout_invariant t.
Proof.
  intros Hinit.
  pose proof Hinit as (total & Htotal & Hst & HS & Hte & Hsize & _)%initialize_returns.
  unfold layout_invariant. rewrite HS, Hte, Hsize.
  split; [now apply calculate_stride_length in Hst|].
  split; [reflexivity|].
  intros Hpos Hfit.
  assert (Hne : S <> []) by (intros ->; discriminate).
  rewrite calculate_total_exact in Htotal by assumption. injection Htotal as <-.
  pose proof (product_pos S Hpos).
  apply to_size_t_small. limits. lia.
Qed.

(** On a tensor that [initialize] returned, the transform re-runs the
    construction on the same shape and a buffer of the same length. *)
Lemma element_wise_apply_returns
  (this : Tensor T) (S : list Z) (elems : list T) (t : Tensor T) (operation : T -> T) :
  initialize T_default this S elems = Returns t ->
  element_wise_apply T_default t operation =
  Returns (mkTensor (shape t) (stride t) (operation <$> elements t) (total_elements t)).
Proof.
  intros (total & Htotal & Hst & HS & Hte & Hsize & _)%initialize_returns.
  unfold element_wise_apply, Tensor_ctor, initialize.
  rewrite push_back_each, app_nil_l, HS, Htotal. cbn [bind].
  rewrite Hst, Hte. cbn [bind].
  assert (Hlen : vec_size (operation <$> elements t) = to_size_t total)
    by (unfold vec_size in *; now rewrite length_fmap).
  destruct (elements t) as [|e elems'] eqn:Helems.
  - unfold vec_size in Hsize. simpl in Hsize. rewrite <- Hsize.
    reflexivity.
  - rewrite fmap_cons in Hlen |- *. cbv iota.
    rewrite Hlen, Z.eqb_refl. reflexivity.
Qed.

(** C7. For a constructed tensor [t] and any function [operation],
    [element_wise_apply] returns a tensor with the shape (and strides and
    element count) of [t] whose buffer is [operation] applied to each
    element of [t]'s buffer in buffer order; with the identity it returns a
    tensor equal to [t].  [t] is a value: nothing changes it. *)
Theorem element_wise_apply_maps
  (S : list Z) (elems : list T) (t : Tensor T) (operation : T -> T) :
  Tensor_ctor T_default S elems = Returns t ->
  element_wise_apply T_default t operation =
    Returns (mkTensor (shape t) (stride t) (operation <$> elements t) (total_elements t)) /\
  shape t = S /\
  element_wise_apply T_default t (fun e => e) = Returns t.
Proof.
  intros Hctor. unfold Tensor_ctor in Hctor.
  split; [exact (element_wise_apply_returns _ _ _ _ operation Hctor)|].
  split.
  - now apply initialize_returns in Hctor as (total & _ & _ & HS & _).
  - rewrite (element_wise_apply_returns _ _ _ _ (fun e => e) Hctor).
    change (fun e : T => e) with (@id T). rewrite list_fmap_id.
    now destruct t.
Qed.

Lemma initialize_object_outcome (this : Tensor T) (dims : list Z) (elems : list T) :
  outcome_of (initialize_object T_default this dims elems)
  = initialize T_default this dims elems.
Proof.
  unfold initialize_object, initialize.
  destruct (calculate_total dims) as [total|e|]; cbn [bind outcome_of]; [|reflexivity..].
  destruct (calculate_stride dims (size_t_to_int (to_size_t total))) as [st|e|];
    cbn [bind outcome_of]; [|reflexivity..].
  destruct elems as [|x elems].
  - destruct (vec_resize T_default (elements this) (to_size_t total)); reflexivity.
  - destruct (negb (vec_size (x :: elems) =? to_size_t total)); reflexivity.
Qed.

Lemma calculate_stride_no_throw (dims : list Z) (total : Z) (e : exception) :
  dims <> [] -> calculate_stride dims total <> Throws e.
Proof.
  intros Hne. rewrite calculate_stride_nonempty by exact Hne.
  destruct dims as [|d dims]; [congruence|]. cbn [calculate_total].
  destruct (total =? 0); cbn [bind]; apply stride_loop_no_throw.
Qed.

Lemma initialize_object_raises
  (this t' : Tensor T) (dims : list Z) (elems : list T) (e : exception) :
  initialize_object T_default this dims elems = Raises e t' ->
  shape t' = dims /\
  elements t' = elements this /\
  (dims <> [] ->
   exists total,
     calculate_total dims = Returns total /\
     calculate_stride dims (size_t_to_int (to_size_t total)) = Returns (stride t') /\
     total_elements t' = to_size_t total).
Proof.
  unfold initialize_object.
  destruct (calculate_total dims) as [total|e0|] eqn:Htotal; [| |discriminate].
  - destruct (calculate_stride dims (size_t_to_int (to_size_t total)))
      as [st|e0|] eqn:Hstride; [| |discriminate].
    + intros Hraise.
      assert (Ht' : t' = mkTensor dims st (elements this) (to_size_t total)).
      { destruct elems as [|x elems].
        - destruct (vec_resize T_default (elements this) (to_size_t total));
            congruence.
        - destruct (negb (vec_size (x :: elems) =? to_size_t total)); congruence. }
      subst t'. cbn [shape elements stride total_elements].
      repeat split; auto. intros _. now exists total.
    + intros [= <- <-]. cbn [shape elements]. repeat split; auto.
      intros Hne. now destruct (calculate_stride_no_throw _ _ _ Hne Hstride).
  - intros [= <- <-]. cbn [shape elements]. repeat split; auto.
    intros Hne. destruct dims; [congruence | discriminate Htotal].
Qed.

(** C8 (amended). Every tensor that construction (or a later call of
    [initialize]) returns satisfies: the stride table has the length of the
    shape, [total_elements] is the length of the buffer, and, when the
    shape holds positive sizes whose product is at most [INT_MAX],
    [total_elements] is that product.  Every operation that completes
    preserves them: [element_wise_apply] returns a tensor satisfying them,
    a further [initialize] that completes leaves one, and [at] and the
    getters are [const] and only return values.  A further [initialize]
    that throws leaves the object with the shape passed in (and, for a
    non-empty shape, the stride table and [total_elements] computed from
    it) over the buffer it had. *)
Theorem layout_invariant_preserved
  (this : Tensor T) (S : list Z) (elems : list T) (t : Tensor T) :
  initialize T_default this S elems = Returns t ->
  layout_invariant t /\
  (forall operation, exists t',
     element_wise_apply T_default t operation = Returns t' /\
     layout_invariant t') /\
  (forall dims' elems' t',
     initialize_object T_default t dims' elems' = Completes t' ->
     layout_invariant t') /\
  (forall dims' elems' e t',
     initialize_object T_default t dims' elems' = Raises e t' ->
     shape t' = dims' /\
     elements t' = elements t /\
     (dims' <> [] ->
      exists total,
        calculate_total dims' = Returns total /\
        calculate_stride dims' (size_t_to_int (to_size_t total)) = Returns (stride t') /\
        total_elements t' = to_size_t total)).
Proof.
  intros Hinit.
  pose proof (initialize_invariant _ _ _ _ Hinit) as Hinv.
  split; [exact Hinv|]. split; [|split].
  - intros operation. eexists. split.
    + exact (element_wise_apply_returns _ _ _ _ operation Hinit).
    + destruct Hinv as (Hrank & Hsize & Hproduct).
      unfold layout_invariant. cbn [shape stride elements total_elements].
      unfold vec_size in *. rewrite length_fmap. auto.
  - intros dims' elems' t' Hcompletes.
    apply (initialize_invariant t dims' elems').
    now rewrite <- initialize_object_outcome, Hcompletes.
  - intros dims' elems' e t'. apply initialize_object_raises.
Qed.

End Transform.

Lemma element_wise_apply_maps_witness :
  element_wise_apply 0 tensor_2x3 (Z.add 10) =
    Returns (mkTensor [2; 3] [3; 1] [10; 11; 12; 13; 14; 15] 6) /\
  shape tensor_2x3 = [2; 3] /\
  element_wise_apply 0 tensor_2x3 (fun e => e) = Returns tensor_2x3.
Proof.
  apply (element_wise_apply_maps 0 [2; 3] [0; 1; 2; 3; 4; 5] tensor_2x3 (Z.add 10)).
  reflexivity.
Defined.

Lemma layout_invariant_preserved_witness :
  layout_invariant tensor_2x3 /\
  (forall operation, exists t',
     element_wise_apply 0 tensor_2x3 operation = Returns t' /\
     layout_invariant t') /\
  (forall dims' elems' t',
     initialize_object 0 tensor_2x3 dims' elems' = Completes t' ->
     layout_invariant t') /\
  (forall dims' elems' e t',
     initialize_object 0 tensor_2x3 dims' elems' = Raises e t' ->
     shape t' = dims' /\
     elements t' = elements tensor_2x3 /\
     (dims' <> [] ->
      exists total,
        calculate_total dims' = Returns total /\
        calculate_stride dims' (size_t_to_int (to_size_t total)) = Returns (stride t') /\
        total_elements t' = to_size_t total)).
Proof.
  apply (layout_invariant_preserved 0 (fresh (T:=Z)) [2; 3] [0; 1; 2; 3; 4; 5] tensor_2x3).
  reflexivity.
Defined.

(** C8, as stated, fails in two ways.  Once the product leaves the range of
    [int], [total_elements] is not the product: the shape [65536, 65536]
    constructs a tensor with [total_elements = 0], while the product of the
    shape is [2^32].  And an operation that throws does not preserve the
    invariants: [initialize({2, 2}, {7})] on the tensor of shape [2, 3]
    over [0 .. 5] throws for the buffer size and leaves shape [2, 2],
    strides [2, 1] and [total_elements = 4] over the six old elements. *)
Lemma layout_invariant_violations :
  (Tensor_ctor 0 [65536; 65536] [] = Returns (mkTensor [65536; 65536] [0; 0] [] 0) /\
   product [65536; 65536] = 4294967296) /\
  (Tensor_ctor 0 [2; 3] [0; 1; 2; 3; 4; 5] = Returns tensor_2x3 /\
   initialize_object 0 tensor_2x3 [2; 2] [7]
   = Raises ShapeMismatch (mkTensor [2; 2] [2; 1] [0; 1; 2; 3; 4; 5] 4) /\
   vec_size [0; 1; 2; 3; 4; 5] = 6).
Proof. repeat split. Qed.

(** * Further properties of the code *)

(** ** The layout helpers on arbitrary input *)

Lemma stride_loop_prefix (dims acc st : list Z) (total : Z) :
  stride_loop dims acc total = Returns st ->
  exists tl, st = acc ++ tl /\ length tl = length dims.
Proof.
  revert acc total. induction dims as [|d dims IH]; intros acc total; simpl.
  - intros [= <-]. exists []. now rewrite app_nil_r.
  - destruct (int_div total d) as [q| |]; simpl; [|discriminate..].
    intros (tl & -> & Hlen)%IH. exists (q :: tl).
    rewrite <- app_assoc. simpl. auto.
Qed.

Lemma stride_loop_quotients (dims : list Z) :
  Forall (Z.lt 0) dims ->
  forall (acc st : list Z) (total : Z) (i : nat),
    stride_loop dims acc total = Returns st -> (i < length dims)%nat ->
    st !! (length acc + i)%nat = Some (Z.quot total (product (take (i + 1) dims))).
Proof.
  induction 1 as [|d dims Hd Hdims IH]; intros acc st total i Hloop Hi;
    [simpl in Hi; lia|].
  simpl in Hloop. rewrite int_div_pos in Hloop by exact Hd. simpl in Hloop.
  destruct i as [|i].
  - apply stride_loop_prefix in Hloop as (tl & -> & _).
    rewrite <- app_assoc. simpl.
    rewrite list_lookup_middle by lia.
    unfold product. simpl. now rewrite Z.mul_1_r.
  - specialize (IH _ _ _ i Hloop). rewrite length_app in IH. simpl in IH.
    replace (length acc + S i)%nat with (length acc + 1 + i)%nat by lia.
    rewrite IH by (simpl in Hi; lia).
    simpl take. rewrite product_cons.
    pose proof (product_pos (take (i + 1) dims) (Forall_take _ _ _ Hdims)).
    rewrite Z.quot_quot by lia. reflexivity.
Qed.

(** X1. Whenever [calculate_stride] returns, for any shape and any total,
    the stride table has one entry per dimension. *)
Theorem calculate_stride_one_entry_per_dimension (dims st : list Z) (total : Z) :
  calculate_stride dims total = Returns st ->
  length st = length dims /\
  forall i, is_Some (dims !! i) <-> is_Some (st !! i).
Proof.
  intros Hst. apply calculate_stride_length in Hst.
  split; [exact Hst|]. intros i.
  rewrite !lookup_lt_is_Some, Hst. reflexivity.
Qed.

Lemma calculate_stride_one_entry_per_dimension_witness :
  length [12; 4; 2] = length [2; 3; 2].
Proof.
  apply (calculate_stride_one_entry_per_dimension [2; 3; 2] [12; 4; 2] 24).
  reflexivity.
Defined.

(** X2. The only exception of [calculate_total] and of [calculate_stride]
    is the [logic_error] for an empty shape: each throws exactly when the
    shape is empty, whatever the total passed in. *)
Theorem layout_helpers_throw_iff_empty (dims : list Z) (total : Z) (e : exception) :
  (calculate_total dims = Throws e <-> dims = [] /\ e = InvalidShape) /\
  (calculate_stride dims total = Throws e <-> dims = [] /\ e = InvalidShape).
Proof.
  destruct dims as [|d dims].
  - split; (split; [intros [= <-]; auto | intros [_ ->]; reflexivity]).
  - split; (split; [|intros [[=] _]]); [discriminate|].
    rewrite calculate_stride_nonempty by discriminate. cbn [calculate_total].
    destruct (total =? 0); cbn [bind]; intros Hloop;
      now apply stride_loop_no_throw in Hloop.
Qed.

(** X3. A shape with a zero size makes [calculate_stride] divide by zero,
    for every total passed in. *)
Theorem calculate_stride_zero_dimension (dims : list Z) (total : Z) :
  In 0 dims -> calculate_stride dims total = Undefined.
Proof.
  intros Hin.
  assert (Hne : dims <> []) by (intros ->; destruct Hin).
  rewrite calculate_stride_nonempty by exact Hne.
  apply list_elem_of_In in Hin.
  destruct dims as [|d dims]; [congruence|]. cbn [calculate_total].
  destruct (total =? 0); cbn [bind]; now apply stride_loop_zero_dim.
Qed.

Lemma calculate_stride_zero_dimension_witness :
  calculate_stride [2; 0; 3] 6 = Undefined.
Proof.
  apply (calculate_stride_zero_dimension [2; 0; 3] 6).
  right. left. reflexivity.
Defined.

(** X4. A total supplied by the caller is not checked against the shape:
    for positive sizes and a non-zero total, stride [i] is the total
    divided (truncating) by the product of the sizes up to and including
    dimension [i]. *)
Theorem calculate_stride_supplied_total (dims : list Z) (total : Z) :
  dims <> [] -> Forall (Z.lt 0) dims -> total <> 0 ->
  exists st,
    calculate_stride dims total = Returns st /\
    forall i, (i < length dims)%nat ->
      st !! i = Some (Z.quot total (product (take (i + 1) dims))).
Proof.
  intros Hne Hpos Htotal.
  destruct (stride_loop_returns dims [] total Hpos) as [st Hst].
  exists st. split.
  - rewrite calculate_stride_nonempty by exact Hne.
    apply Z.eqb_neq in Htotal. now rewrite Htotal.
  - intros i Hi. exact (stride_loop_quotients dims Hpos [] st total i Hst Hi).
Qed.

Lemma calculate_stride_supplied_total_witness :
  exists st,
    calculate_stride [2; 3] 100 = Returns st /\
    forall i, (i < length [2; 3])%nat ->
      st !! i = Some (Z.quot 100 (product (take (i + 1) [2; 3]))).
Proof.
  apply (calculate_stride_supplied_total [2; 3] 100).
  - discriminate.
  - repeat constructor.
  - discriminate.
Defined.

Lemma product_permutation (dims dims' : list Z) :
  dims ≡ₚ dims' -> product dims = product dims'.
Proof.
  induction 1 as [|d l l' _ IH|d d' l|l l' l'' _ IH1 _ IH2].
  - reflexivity.
  - rewrite !product_cons. now rewrite IH.
  - rewrite !product_cons. ring.
  - congruence.
Qed.

(** X5. Reordering the dimensions of a shape of positive sizes whose
    product fits [int] leaves [calculate_total] unchanged. *)
Theorem calculate_total_permutation (dims dims' : list Z) :
  dims ≡ₚ dims' ->
  dims <> [] -> Forall (Z.lt 0) dims -> product dims <= INT_MAX ->
  calculate_total dims' = calculate_total dims /\
  calculate_total dims = Returns (product dims).
Proof.
  intros Hperm Hne Hpos Hfit.
  rewrite (calculate_total_exact dims) by assumption.
  split; [|reflexivity].
  rewrite (product_permutation _ _ Hperm) in Hfit |- *.
  apply calculate_total_exact; [| now rewrite <- Hperm | exact Hfit].
  intros ->. now apply Permutation_nil_r in Hperm.
Qed.

Lemma calculate_total_permutation_witness :
  calculate_total [4; 2; 3] = calculate_total [2; 3; 4] /\
  calculate_total [2; 3; 4] = Returns (product [2; 3; 4]).
Proof.
  apply (calculate_total_permutation [2; 3; 4] [4; 2; 3]).
  - change [4; 2; 3] with ([4] ++ [2; 3]).
    change [2; 3; 4] with ([2; 3] ++ [4]).
    apply Permutation_app_comm.
  - discriminate.
  - repeat constructor.
  - vm_compute. discriminate.
Defined.

(** ** Construction and the getters *)

Section ConstructionFacts.

Context {T : Type} (T_default : T).

(** The buffer after a returning [initialize] without data. *)
Lemma initialize_without_data (this t : Tensor T) (dims : list Z) :
  initialize T_default this dims [] = Returns t ->
  0 <= total_elements t <= vector_max_size /\
  elements t =
    take (Z.to_nat (total_elements t)) (elements this)
    ++ replicate (Z.to_nat (total_elements t) - length (elements this)) T_default.
Proof.
  unfold initialize.
  intros (total & _ & (st & _ & (v & Hv & [= <-])%bind_returns)%bind_returns)%bind_returns.
  cbn [total_elements elements].
  pose proof (to_size_t_range total) as Hrange.
  unfold vec_resize in Hv.
  destruct (Z.ltb_spec vector_max_size (to_size_t total)); [discriminate|].
  injection Hv as <-. split; [lia | reflexivity].
Qed.

(** X6. After any returning construction the getters give back what was
    passed in: [get_shape] is the shape, [get_total_elements] is the size
    of [get_elements], a non-empty buffer is stored as it is, and an
    omitted buffer is [get_total_elements] copies of [T{}]. *)
Theorem getters_after_construction (dims : list Z) (elems : list T) (t : Tensor T) :
  Tensor_ctor T_default dims elems = Returns t ->
  get_shape t = dims /\
  get_total_elements t = vec_size (get_elements t) /\
  (elems <> [] -> get_elements t = elems) /\
  (elems = [] ->
   get_elements t = replicate (Z.to_nat (get_total_elements t)) T_default).
Proof.
  unfold Tensor_ctor, get_shape, get_total_elements, get_elements. intros Hctor.
  pose proof (initialize_returns _ _ _ _ _ Hctor)
    as (total & _ & _ & Hshape & Htotal & Hsize & Helems).
  split; [exact Hshape|]. split; [congruence|]. split; [exact Helems|].
  intros ->. apply initialize_without_data in Hctor as [_ ->].
  cbn [fresh elements]. rewrite take_nil. simpl. now rewrite Nat.sub_0_r.
Qed.

(** X7. Calling [initialize] without data on a tensor that already holds
    elements does not reset them: entry [i] of the new buffer is the old
    entry [i] where there was one, and [T{}] beyond the old buffer. *)
Theorem initialize_without_data_keeps_prefix
  (this t : Tensor T) (dims : list Z) (i : nat) :
  initialize T_default this dims [] = Returns t ->
  Z.of_nat i < total_elements t ->
  elements t !! i = Some (default T_default (elements this !! i)).
Proof.
  intros [Hrange ->]%initialize_without_data Hi.
  set (n := Z.to_nat (total_elements t)) in *.
  assert (Hin : (i < n)%nat) by lia.
  destruct (elements this !! i) as [e|] eqn:Hold; cbn [default].
  - pose proof (lookup_lt_Some _ _ _ Hold) as Hlt.
    rewrite lookup_app_l by (rewrite length_take; lia).
    now rewrite lookup_take_lt.
  - apply lookup_ge_None_1 in Hold.
    rewrite lookup_app_r by (rewrite length_take; lia).
    apply lookup_replicate_2. rewrite length_take. lia.
Qed.

End ConstructionFacts.

Lemma getters_after_construction_witness :
  get_shape tensor_2x3 = [2; 3] /\
  get_total_elements tensor_2x3 = vec_size (get_elements tensor_2x3) /\
  ([0; 1; 2; 3; 4; 5] <> [] -> get_elements tensor_2x3 = [0; 1; 2; 3; 4; 5]) /\
  ([0; 1; 2; 3; 4; 5] = [] ->
   get_elements tensor_2x3 = replicate (Z.to_nat (get_total_elements tensor_2x3)) 0).
Proof.
  apply (getters_after_construction 0 [2; 3] [0; 1; 2; 3; 4; 5] tensor_2x3).
  reflexivity.
Defined.

Lemma initialize_without_data_keeps_prefix_witness :
  elements (mkTensor [2; 2] [2; 1] [0; 1; 2; 3] 4) !! 3%nat
  = Some (default 0 (elements tensor_2x3 !! 3%nat)).
Proof.
  apply (initialize_without_data_keeps_prefix 0 tensor_2x3
           (mkTensor [2; 2] [2; 1] [0; 1; 2; 3] 4) [2; 2] 3).
  - reflexivity.
  - reflexivity.
Defined.

(** ** What [at] throws *)

Lemma at_steps_throws_iff (dims c st : list Z) (acc : Z) (e : exception) :
  length c = length dims -> length st = length dims ->
  at_steps c dims st acc = Throws e <->
  e = IndexOutOfRange /\
  exists i p s, c !! i = Some p /\ dims !! i = Some s /\ s <= p.
Proof.
  revert c st acc. induction dims as [|s dims IH]; intros c st acc Hc Hst.
  - destruct c; [|discriminate]. cbn [at_steps]. split; [discriminate|].
    intros (_ & i & p & s & Hp & _). now rewrite lookup_nil in Hp.
  - destruct c as [|p c]; [discriminate|]. destruct st as [|x st]; [discriminate|].
    cbn [at_steps]. destruct (Z.geb_spec p s) as [Hge|Hlt].
    + split.
      * intros [= <-]. split; [reflexivity|]. now exists 0%nat, p, s.
      * now intros [-> _].
    + rewrite IH by (simpl in *; lia). split.
      * intros (-> & i & p' & s' & Hp & Hs & Hle).
        split; [reflexivity|]. now exists (Datatypes.S i), p', s'.
      * intros (-> & [|i] & p' & s' & Hp & Hs & Hle); simpl in Hp, Hs.
        -- injection Hp as <-. injection Hs as <-. lia.
        -- split; [reflexivity|]. now exists i, p', s'.
Qed.

Lemma vec_index_no_throw {A : Type} (v : list A) (k : Z) (e : exception) :
  vec_index v k <> Throws e.
Proof.
  unfold vec_index, vec_get.
  destruct ((0 <=? k) && (k <? vec_size v)); [|discriminate].
  destruct (v !! Z.to_nat k); discriminate.
Qed.

(** X8. On a tensor whose stride table has the length of its shape, [at]
    throws in exactly two cases: [invalid_argument] when the position has
    another length than the shape, and otherwise [out_of_range] when some
    component is at or above the size of its dimension.  Nothing else is
    thrown, and a component below zero alone is never a reason to throw. *)
Theorem at_throws_iff {T : Type} (t : Tensor T) (position : list Z)
  (print_mode : ascii) (cout : list T) (e : exception) :
  length (stride t) = length (shape t) ->
  at_ t position print_mode cout = Throws e <->
  (length position <> length (shape t) /\ e = RankMismatch) \/
  (length position = length (shape t) /\ e = IndexOutOfRange /\
   exists i p s, position !! i = Some p /\ shape t !! i = Some s /\ s <= p).
Proof.
  intros Hstride. unfold at_.
  destruct (Nat.eqb_spec (length position) (length (shape t))) as [Hrank|Hrank];
    cbn [negb].
  - rewrite flat_index_of_steps.
    pose proof (at_steps_throws_iff (shape t) position (stride t) 0 e Hrank Hstride)
      as Hsteps.
    destruct (at_steps position (shape t) (stride t) 0) as [k|e0|]; cbn [bind].
    + split.
      * pose proof (vec_index_no_throw (elements t) k e) as Hno.
        destruct (Ascii.eqb print_mode "Y");
          destruct (vec_index (elements t) k); cbn [bind]; congruence.
      * intros [[Hne _]|(_ & He & Hex)]; [contradiction|].
        pose proof (proj2 Hsteps (conj He Hex)). discriminate.
    + split.
      * intros [= ->]. right. split; [exact Hrank|]. exact (proj1 Hsteps eq_refl).
      * intros [[Hne _]|(_ & He & Hex)]; [contradiction|].
        pose proof (proj2 Hsteps (conj He Hex)). congruence.
    + split; [discriminate|].
      intros [[Hne _]|(_ & He & Hex)]; [contradiction|].
      pose proof (proj2 Hsteps (conj He Hex)). discriminate.
  - split.
    + intros [= <-]. now left.
    + intros [[_ ->]|[Heq _]]; [reflexivity | contradiction].
Qed.

Lemma at_throws_iff_witness :
  at_ tensor_2x3 [2; 0] "N" [] = Throws IndexOutOfRange.
Proof.
  apply (at_throws_iff tensor_2x3 [2; 0] "N" [] IndexOutOfRange); [reflexivity|].
  right. split; [reflexivity|]. split; [reflexivity|].
  exists 0%nat, 2, 2. repeat split. discriminate.
Defined.

(** ** The row-major layout seen through [at] *)

Lemma length_row_major_strides (dims : list Z) :
  length (row_major_strides dims) = length dims.
Proof. induction dims as [|d dims IH]; simpl; congruence. Qed.

Lemma dot_row_major_lex (dims c c' : list Z) :
  valid_coordinate dims c -> valid_coordinate dims c' ->
  lex_lt c c' <-> dot c (row_major_strides dims) < dot c' (row_major_strides dims).
Proof.
  unfold valid_coordinate. intros Hc. revert c'.
  induction Hc as [|x d c dims Hx Hc IH]; intros c' Hc'.
  - inversion Hc'. unfold dot. simpl. lia.
  - inversion Hc' as [|y ? c2 ? Hy Hc2]; subst.
    simpl row_major_strides. rewrite !dot_cons. cbn [lex_lt].
    pose proof (dot_row_major_range dims c Hc) as Hr.
    pose proof (dot_row_major_range dims c2 Hc2) as Hr'.
    rewrite (IH c2 Hc2). split.
    + intros [Hlt|[-> Hlt]]; nia.
    + intros Hlt. destruct (Z.lt_trichotomy x y) as [?|[->|?]]; [auto | right | nia].
      split; [reflexivity | lia].
Qed.

Lemma dot_insert (c st : list Z) (i : nat) (ci si x : Z) :
  c !! i = Some ci -> st !! i = Some si ->
  dot (<[i:=x]> c) st = dot c st + (x - ci) * si.
Proof.
  revert st i. induction c as [|c0 c IH]; intros st i Hc Hst; [discriminate|].
  destruct st as [|s0 st]; [now rewrite lookup_nil in Hst|].
  destruct i as [|i]; simpl in Hc, Hst.
  - injection Hc as ->. injection Hst as ->. simpl. rewrite !dot_cons. ring.
  - simpl. rewrite !dot_cons, (IH st i Hc Hst). ring.
Qed.

Lemma dot_zero_coordinate (dims st : list Z) :
  dot ((fun _ => 0) <$> dims) st = 0.
Proof.
  revert st. induction dims as [|d dims IH]; intros st; [reflexivity|].
  destruct st as [|s st]; [reflexivity|].
  rewrite fmap_cons, dot_cons, IH. lia.
Qed.

Lemma vec_index_lookup {A : Type} (v : list A) (i : nat) (x : A) :
  v !! i = Some x -> vec_index v (Z.of_nat i) = Returns x.
Proof.
  intros Hx. pose proof (lookup_lt_Some _ _ _ Hx) as Hlt.
  unfold vec_index, vec_size, vec_get.
  destruct (Z.leb_spec 0 (Z.of_nat i)); [|lia].
  destruct (Z.ltb_spec (Z.of_nat i) (Z.of_nat (length v))); [|lia].
  cbn [andb]. now rewrite Nat2Z.id, Hx.
Qed.

Section Layout.

Context {T : Type} (T_default : T).

(** X9. In a tensor constructed from a shape of positive [int] sizes and a
    buffer as long as their product, every buffer entry is read by [at] at
    exactly one valid coordinate. *)
Theorem every_element_reachable
  (dims : list Z) (elems : list T) (t : Tensor T) (cout : list T) (i : nat) (e : T) :
  dims <> [] -> Forall (fun d => 0 < d <= INT_MAX) dims ->
  vec_size elems = product dims -> vec_size elems <= vector_max_size ->
  Tensor_ctor T_default dims elems = Returns t ->
  elems !! i = Some e ->
  exists c,
    valid_coordinate dims c /\
    flat_index_of t c = Returns (Z.of_nat i) /\
    at_ t c "N" cout = Returns (e, cout) /\
    forall c', valid_coordinate dims c' ->
      flat_index_of t c' = Returns (Z.of_nat i) -> c' = c.
Proof.
  intros Hne Hdims Hlen Hmax Hctor He.
  destruct (constructed_row_major T_default dims elems t Hne Hdims Hlen Hmax Hctor)
    as [Hfit ->].
  assert (Hpos : Forall (Z.lt 0) dims)
    by (eapply Forall_impl; [exact Hdims|]; simpl; lia).
  pose proof (lookup_lt_Some _ _ _ He) as Hlt.
  assert (Hin : Z.of_nat i ∈ seqZ 0 (product dims))
    by (apply elem_of_seqZ; unfold vec_size in Hlen; lia).
  rewrite <- (fmap_dot_coordinates dims Hpos) in Hin.
  apply list_elem_of_fmap in Hin as (c & Hdot & Hc%valid_coordinate_enumerated).
  exists c. split; [exact Hc|].
  destruct (at_row_major dims c elems cout "N" Hc Hfit) as [Hflat Hat].
  rewrite <- Hdot in Hflat, Hat.
  split; [exact Hflat|]. split.
  - rewrite Hat, (vec_index_lookup _ _ _ He). reflexivity.
  - intros c' Hc'.
    destruct (at_row_major dims c' elems cout "N" Hc' Hfit) as [-> _].
    intros [= Heq]. apply (dot_row_major_inj dims); congruence.
Qed.

(** The layout of a tensor the constructor returns, with a buffer or
    without, for a shape of positive sizes whose product fits [int]. *)
Lemma constructed_fits_layout (dims : list Z) (elems : list T) (t : Tensor T) :
  dims <> [] -> Forall (Z.lt 0) dims -> product dims <= INT_MAX ->
  Tensor_ctor T_default dims elems = Returns t ->
  shape t = dims /\ stride t = row_major_strides dims.
Proof.
  intros Hne Hpos Hfit. unfold Tensor_ctor.
  rewrite initialize_exact by assumption.
  destruct elems as [|x elems].
  - intros (v & _ & [= <-])%bind_returns. auto.
  - destruct (negb (vec_size (x :: elems) =? product dims)); [discriminate|].
    intros [= <-]. auto.
Qed.

Lemma flat_index_of_row_major (t : Tensor T) (dims c : list Z) :
  shape t = dims -> stride t = row_major_strides dims ->
  product dims <= INT_MAX -> valid_coordinate dims c ->
  flat_index_of t c = Returns (dot c (row_major_strides dims)).
Proof.
  intros Hshape Hstride Hfit Hc.
  rewrite flat_index_of_steps, Hshape, Hstride.
  rewrite at_steps_row_major by (auto; limits; lia). reflexivity.
Qed.

(** X10. [at] lays coordinates out in row-major order: in a tensor the
    constructor returns, with a buffer or without, for a shape of positive
    sizes whose product is at most [INT_MAX], one valid coordinate is
    lexicographically smaller than another exactly when its flat index is
    smaller. *)
Theorem flat_index_row_major_order
  (dims : list Z) (elems : list T) (t : Tensor T) (c c' : list Z) :
  dims <> [] -> Forall (Z.lt 0) dims -> product dims <= INT_MAX ->
  Tensor_ctor T_default dims elems = Returns t ->
  valid_coordinate dims c -> valid_coordinate dims c' ->
  exists k k',
    flat_index_of t c = Returns k /\ flat_index_of t c' = Returns k' /\
    (lex_lt c c' <-> k < k').
Proof.
  intros Hne Hpos Hfit Hctor Hc Hc'.
  destruct (constructed_fits_layout dims elems t Hne Hpos Hfit Hctor)
    as [Hshape Hstride].
  eexists _, _.
  split; [exact (flat_index_of_row_major t dims c Hshape Hstride Hfit Hc)|].
  split; [exact (flat_index_of_row_major t dims c' Hshape Hstride Hfit Hc')|].
  now apply dot_row_major_lex.
Qed.

(** X11. The stride of a dimension is the distance in the buffer between
    neighbours along it: in a tensor the constructor returns, with a buffer
    or without, for a shape of positive sizes whose product is at most
    [INT_MAX], raising component [i] of a valid coordinate by one (staying
    inside the dimension) raises the flat index by [stride[i]]. *)
Theorem stride_is_unit_step
  (dims : list Z) (elems : list T) (t : Tensor T) (c : list Z) (i : nat) (ci d : Z) :
  dims <> [] -> Forall (Z.lt 0) dims -> product dims <= INT_MAX ->
  Tensor_ctor T_default dims elems = Returns t ->
  valid_coordinate dims c ->
  c !! i = Some ci -> dims !! i = Some d -> ci + 1 < d ->
  exists k si,
    flat_index_of t c = Returns k /\
    stride t !! i = Some si /\
    flat_index_of t (<[i:=ci + 1]> c) = Returns (k + si).
Proof.
  intros Hne Hpos Hfit Hctor Hc Hci Hd Hroom.
  destruct (constructed_fits_layout dims elems t Hne Hpos Hfit Hctor)
    as [Hshape Hstride].
  destruct (lookup_lt_is_Some_2 (row_major_strides dims) i) as [si Hsi].
  { rewrite length_row_major_strides. now apply lookup_lt_Some in Hd. }
  assert (Hc' : valid_coordinate dims (<[i:=ci + 1]> c)).
  { unfold valid_coordinate in *.
    rewrite <- (list_insert_id dims i d Hd).
    apply Forall2_insert; [exact Hc|].
    pose proof (Forall2_lookup_lr _ _ _ _ _ _ Hc Hci Hd). simpl in *. lia. }
  eexists _, si.
  split; [exact (flat_index_of_row_major t dims c Hshape Hstride Hfit Hc)|].
  split; [now rewrite Hstride|].
  rewrite (flat_index_of_row_major t dims _ Hshape Hstride Hfit Hc').
  rewrite (dot_insert _ _ _ _ _ _ Hci Hsi). f_equal. ring.
Qed.

End Layout.

Lemma every_element_reachable_witness :
  exists c,
    valid_coordinate [2; 3] c /\
    flat_index_of tensor_2x3 c = Returns (Z.of_nat 5) /\
    at_ tensor_2x3 c "N" [] = Returns (5, []) /\
    forall c', valid_coordinate [2; 3] c' ->
      flat_index_of tensor_2x3 c' = Returns (Z.of_nat 5) -> c' = c.
Proof.
  apply (every_element_reachable 0 [2; 3] [0; 1; 2; 3; 4; 5] tensor_2x3 [] 5 5).
  - discriminate.
  - repeat constructor; limits; lia.
  - reflexivity.
  - vm_compute. discriminate.
  - reflexivity.
  - reflexivity.
Defined.

Lemma flat_index_row_major_order_witness :
  exists k k',
    flat_index_of tensor_2x3 [0; 2] = Returns k /\
    flat_index_of tensor_2x3 [1; 0] = Returns k' /\
    (lex_lt [0; 2] [1; 0] <-> k < k').
Proof.
  apply (flat_index_row_major_order 0 [2; 3] [0; 1; 2; 3; 4; 5] tensor_2x3).
  - discriminate.
  - repeat constructor.
  - vm_compute. discriminate.
  - reflexivity.
  - repeat constructor; lia.
  - repeat constructor; lia.
Defined.

Lemma stride_is_unit_step_witness :
  exists k si,
    flat_index_of (mkTensor [2; 3] [3; 1] [0; 0; 0; 0; 0; 0] 6) [0; 1] = Returns k /\
    stride (mkTensor [2; 3] [3; 1] [0; 0; 0; 0; 0; 0] 6) !! 0%nat = Some si /\
    flat_index_of (mkTensor [2; 3] [3; 1] [0; 0; 0; 0; 0; 0] 6) (<[0%nat:=0 + 1]> [0; 1])
    = Returns (k + si).
Proof.
  apply (stride_is_unit_step 0 [2; 3] []
           (mkTensor [2; 3] [3; 1] [0; 0; 0; 0; 0; 0] 6) [0; 1] 0 0 2).
  - discriminate.
  - repeat constructor.
  - vm_compute. discriminate.
  - reflexivity.
  - repeat constructor; lia.
  - reflexivity.
  - reflexivity.
  - reflexivity.
Defined.

Section Corners.

Context {T : Type} (T_default : T).

Lemma valid_coordinate_fmap (f : Z -> Z) (dims : list Z) :
  Forall (fun d => 0 <= f d < d) dims -> valid_coordinate dims (f <$> dims).
Proof.
  intros Hf. unfold valid_coordinate.
  apply Forall2_fmap_l, Forall_Forall2_diag. exact Hf.
Qed.

(** X12. In a tensor constructed from a shape of positive [int] sizes and
    a buffer as long as their product, [at] reads the first buffer entry at
    the all-zero coordinate and the last one at the coordinate whose
    components are the sizes minus one. *)
Theorem at_corner_coordinates
  (dims : list Z) (elems : list T) (t : Tensor T) (cout : list T) :
  dims <> [] -> Forall (fun d => 0 < d <= INT_MAX) dims ->
  vec_size elems = product dims -> vec_size elems <= vector_max_size ->
  Tensor_ctor T_default dims elems = Returns t ->
  exists first final,
    head elems = Some first /\ last elems = Some final /\
    at_ t ((fun _ => 0) <$> dims) "N" cout = Returns (first, cout) /\
    at_ t ((fun d => d - 1) <$> dims) "N" cout = Returns (final, cout).
Proof.
  intros Hne Hdims Hlen Hmax Hctor.
  destruct (constructed_row_major T_default dims elems t Hne Hdims Hlen Hmax Hctor)
    as [Hfit ->].
  assert (Hpos : Forall (Z.lt 0) dims)
    by (eapply Forall_impl; [exact Hdims|]; simpl; lia).
  pose proof (product_pos dims Hpos) as Hp.
  unfold vec_size in Hlen.
  destruct (lookup_lt_is_Some_2 elems 0) as [first Hfirst]; [lia|].
  destruct (lookup_lt_is_Some_2 elems (pred (length elems))) as [final Hfinal]; [lia|].
  exists first, final.
  split; [now rewrite head_lookup|]. split; [now rewrite last_lookup|].
  split.
  - assert (Hc : valid_coordinate dims ((fun _ => 0) <$> dims)).
    { apply valid_coordinate_fmap. eapply Forall_impl; [exact Hpos|]. simpl. lia. }
    destruct (at_row_major dims _ elems cout "N" Hc Hfit) as [_ ->].
    rewrite dot_zero_coordinate.
    pose proof (vec_index_lookup elems 0 first Hfirst) as Hread.
    change (Z.of_nat 0) with 0 in Hread. now rewrite Hread.
  - assert (Hc : valid_coordinate dims ((fun d => d - 1) <$> dims)).
    { apply valid_coordinate_fmap. eapply Forall_impl; [exact Hpos|]. simpl. lia. }
    destruct (at_row_major dims _ elems cout "N" Hc Hfit) as [_ ->].
    rewrite dot_max_coordinate.
    replace (product dims - 1) with (Z.of_nat (pred (length elems))) by lia.
    now rewrite (vec_index_lookup elems _ final Hfinal).
Qed.

(** X13. A tensor constructed without data from a shape of positive sizes
    whose product fits [int] reads [T{}] at every valid coordinate. *)
Theorem at_default_buffer (dims c : list Z) (cout : list T) :
  dims <> [] -> Forall (Z.lt 0) dims -> product dims <= INT_MAX ->
  valid_coordinate dims c ->
  exists t,
    Tensor_ctor T_default dims [] = Returns t /\
    at_ t c "N" cout = Returns (T_default, cout).
Proof.
  intros Hne Hpos Hfit Hc.
  eexists. split.
  - unfold Tensor_ctor. rewrite initialize_exact by assumption.
    cbn [fresh elements]. rewrite vec_resize_fresh by (limits; lia). reflexivity.
  - destruct (at_row_major dims c (replicate (Z.to_nat (product dims)) T_default)
                cout "N" Hc Hfit) as [_ ->].
    pose proof (dot_row_major_range dims c Hc) as Hr.
    rewrite <- (Z2Nat.id (dot c (row_major_strides dims))) by lia.
    rewrite (vec_index_lookup _ _ T_default); [reflexivity|].
    apply lookup_replicate_2. lia.
Qed.

End Corners.

Lemma at_corner_coordinates_witness :
  exists first final,
    head [0; 1; 2; 3; 4; 5] = Some first /\ last [0; 1; 2; 3; 4; 5] = Some final /\
    at_ tensor_2x3 ((fun _ => 0) <$> [2; 3]) "N" [] = Returns (first, []) /\
    at_ tensor_2x3 ((fun d => d - 1) <$> [2; 3]) "N" [] = Returns (final, []).
Proof.
  apply (at_corner_coordinates 0 [2; 3] [0; 1; 2; 3; 4; 5] tensor_2x3 []).
  - discriminate.
  - repeat constructor; limits; lia.
  - reflexivity.
  - vm_compute. discriminate.
  - reflexivity.
Defined.

Lemma at_default_buffer_witness :
  exists t,
    Tensor_ctor 0 [2; 3] [] = Returns t /\
    at_ t [1; 2] "N" [] = Returns (0, []).
Proof.
  apply (at_default_buffer 0 [2; 3] [1; 2] []).
  - discriminate.
  - repeat constructor.
  - vm_compute. discriminate.
  - repeat constructor; lia.
Defined.

(** ** [element_wise_apply] composed with itself and with [at] *)

Lemma vec_index_fmap {A B : Type} (f : A -> B) (v : list A) (k : Z) :
  vec_index (f <$> v) k = outcome_map f (vec_index v k).
Proof.
  unfold vec_index, vec_size, vec_get. rewrite length_fmap.
  destruct ((0 <=? k) && (k <? Z.of_nat (length v))); [|reflexivity].
  rewrite list_lookup_fmap. now destruct (v !! Z.to_nat k).
Qed.

Section TransformFacts.

Context {T : Type} (T_default : T).

(** X14. On a constructed tensor, applying [f] and then [g] element-wise
    returns what applying their composition returns. *)
Theorem element_wise_apply_compose
  (dims : list Z) (elems : list T) (t : Tensor T) (f g : T -> T) :
  Tensor_ctor T_default dims elems = Returns t ->
  exists t1,
    element_wise_apply T_default t f = Returns t1 /\
    element_wise_apply T_default t1 g
    = element_wise_apply T_default t (fun e => g (f e)).
Proof.
  intros Hctor. unfold Tensor_ctor in Hctor.
  pose proof (element_wise_apply_returns T_default _ _ _ _ f Hctor) as Hf.
  eexists. split; [exact Hf|].
  assert (Hctor1 : initialize T_default fresh (shape t) (f <$> elements t) = Returns
            (mkTensor (shape t) (stride t) (f <$> elements t) (total_elements t))).
  { rewrite <- Hf. unfold element_wise_apply, Tensor_ctor.
    now rewrite push_back_each. }
  rewrite (element_wise_apply_returns T_default _ _ _ _ g Hctor1).
  rewrite (element_wise_apply_returns T_default _ _ _ _ (fun e => g (f e)) Hctor).
  cbn [shape stride elements total_elements].
  now rewrite <- list_fmap_compose.
Qed.

(** X15. Indexing commutes with the element-wise transform: at every
    position and in either print mode, [at] on the transformed tensor
    behaves as [at] on the original one, with [f] applied to the element
    returned (and echoed). *)
Theorem at_after_element_wise_apply
  (dims : list Z) (elems : list T) (t t' : Tensor T) (f : T -> T)
  (position : list Z) (print_mode : ascii) (cout : list T) :
  Tensor_ctor T_default dims elems = Returns t ->
  element_wise_apply T_default t f = Returns t' ->
  at_ t' position print_mode cout =
  outcome_map
    (fun r => (f (fst r),
               if Ascii.eqb print_mode "Y" then cout ++ [f (fst r)] else cout))
    (at_ t position print_mode cout).
Proof.
  intros Hctor Happly. unfold Tensor_ctor in Hctor.
  rewrite (element_wise_apply_returns T_default _ _ _ _ f Hctor) in Happly.
  injection Happly as <-.
  unfold at_. rewrite !flat_index_of_steps. cbn [shape stride elements].
  destruct (negb (length position =? length (shape t))%nat); [reflexivity|].
  destruct (at_steps position (shape t) (stride t) 0) as [k|exn|];
    [|reflexivity..].
  cbn [bind outcome_map]. rewrite vec_index_fmap.
  destruct (Ascii.eqb print_mode "Y");
    destruct (vec_index (elements t) k); reflexivity.
Qed.

End TransformFacts.

Lemma element_wise_apply_compose_witness :
  exists t1,
    element_wise_apply 0 tensor_2x3 (Z.add 10) = Returns t1 /\
    element_wise_apply 0 t1 (Z.mul 2)
    = element_wise_apply 0 tensor_2x3 (fun e => Z.mul 2 (Z.add 10 e)).
Proof.
  apply (element_wise_apply_compose 0 [2; 3] [0; 1; 2; 3; 4; 5] tensor_2x3).
  reflexivity.
Defined.

Lemma at_after_element_wise_apply_witness :
  at_ (mkTensor [2; 3] [3; 1] [10; 11; 12; 13; 14; 15] 6) [1; 2] "Y" [] =
  outcome_map
    (fun r => (Z.add 10 (fst r),
               if Ascii.eqb "Y" "Y" then [] ++ [Z.add 10 (fst r)] else []))
    (at_ tensor_2x3 [1; 2] "Y" []).
Proof.
  apply (at_after_element_wise_apply 0 [2; 3] [0; 1; 2; 3; 4; 5] tensor_2x3).
  - reflexivity.
  - reflexivity.
Defined.
